(** * share_analysis: the MACD / KDJ indicator engine and its signal layer

    A shallow embedding of [compute_macd_kdj], of [main] with its signal
    block, of [fetch_price_data] and [fetch_financial_metrics] with their
    synthetic fall-back, and of the metrics block of the overview tab of
    [app.py].

    Numbers.  The program computes on IEEE-754 doubles (Python [float],
    numpy [float64]).  They are modelled by [pyfloat]: an exact rational, or
    one of the three special values the program can observe, [+inf], [-inf]
    and [nan].  The special values follow the IEEE rules ([x/0], [inf-inf],
    [0*inf], comparisons with [nan], ...); finite arithmetic is exact, so
    rounding, overflow to infinity and the sign of zero are outside the
    model.  [nan] is pandas' missing value: "undefined" below always means
    [NaN], which is what [np.isnan] tests.  The window operations of pandas
    ([ewm], [rolling]) read an infinity as a missing value
    ([prep_values]); plain Series arithmetic and the KDJ loop do not. *)

From Stdlib Require Import QArith Qcanon Qround Lqa String.
From stdpp Require Import base list.

(** ** Doubles *)

Module Float.

Inductive pyfloat : Type :=
| Fin (q : Qc)
| PInf
| NInf
| NaN.

Definition of_Q (q : Q) : pyfloat := Fin (Q2Qc q).
Definition of_Z (z : Z) : pyfloat := of_Q (inject_Z z).

(** [np.isnan]. *)
Definition isnan (x : pyfloat) : bool :=
  match x with NaN => true | _ => false end.

Definition is_finite (x : pyfloat) : bool :=
  match x with Fin _ => true | _ => false end.

Definition is_inf (x : pyfloat) : bool :=
  match x with PInf | NInf => true | _ => false end.

(** The sign of a rational, as a [comparison] with zero. *)
Definition sgn (q : Qc) : comparison := (q ?= 0)%Qc.

Definition fopp (x : pyfloat) : pyfloat :=
  match x with
  | Fin q => Fin (- q)%Qc
  | PInf => NInf
  | NInf => PInf
  | NaN => NaN
  end.

Definition fadd (x y : pyfloat) : pyfloat :=
  match x, y with
  | NaN, _ | _, NaN => NaN
  | Fin a, Fin b => Fin (a + b)%Qc
  | PInf, NInf | NInf, PInf => NaN
  | PInf, _ | _, PInf => PInf
  | NInf, _ | _, NInf => NInf
  end.

Definition fsub (x y : pyfloat) : pyfloat := fadd x (fopp y).

(** An infinity with the sign of [c], where a zero sign gives [nan]
    ([0 * inf], [0 / 0]). *)
Definition signed_inf (c : comparison) : pyfloat :=
  match c with Gt => PInf | Lt => NInf | Eq => NaN end.

Definition fmul (x y : pyfloat) : pyfloat :=
  match x, y with
  | NaN, _ | _, NaN => NaN
  | Fin a, Fin b => Fin (a * b)%Qc
  | Fin a, PInf | PInf, Fin a => signed_inf (sgn a)
  | Fin a, NInf | NInf, Fin a => signed_inf (CompOpp (sgn a))
  | PInf, PInf | NInf, NInf => PInf
  | PInf, NInf | NInf, PInf => NInf
  end.

(** Division as numpy does it under [errstate(all=ignore)], which pandas
    sets for Series arithmetic: no exception, [x/0] is an infinity of the
    sign of [x], and [0/0] is [nan]. *)
Definition fdiv (x y : pyfloat) : pyfloat :=
  match x, y with
  | NaN, _ | _, NaN => NaN
  | Fin a, Fin b =>
      match sgn b with
      | Eq => signed_inf (sgn a)
      | _ => Fin (a / b)%Qc
      end
  | Fin _, (PInf | NInf) => Fin 0%Qc
  | PInf, Fin b => match sgn b with Lt => NInf | _ => PInf end
  | NInf, Fin b => match sgn b with Lt => PInf | _ => NInf end
  | (PInf | NInf), (PInf | NInf) => NaN
  end.

(** Comparisons: every comparison with [nan] is false. *)
Definition flt (x y : pyfloat) : bool :=
  match x, y with
  | NaN, _ | _, NaN => false
  | Fin a, Fin b => match (a ?= b)%Qc with Lt => true | _ => false end
  | NInf, (Fin _ | PInf) => true
  | Fin _, PInf => true
  | _, _ => false
  end.

Definition fgt (x y : pyfloat) : bool := flt y x.

Definition feq (x y : pyfloat) : bool :=
  match x, y with
  | Fin a, Fin b => match (a ?= b)%Qc with Eq => true | _ => false end
  | PInf, PInf | NInf, NInf => true
  | _, _ => false
  end.

Definition fle (x y : pyfloat) : bool := flt x y || feq x y.

Definition fmin (x y : pyfloat) : pyfloat := if flt y x then y else x.
Definition fmax (x y : pyfloat) : pyfloat := if flt x y then y else x.

End Float.
Export Float.

Declare Scope float_scope.
Delimit Scope float_scope with F.
Bind Scope float_scope with pyfloat.
Notation "x + y" := (fadd x y) : float_scope.
Notation "x - y" := (fsub x y) : float_scope.
Notation "x * y" := (fmul x y) : float_scope.
Notation "x / y" := (fdiv x y) : float_scope.
Notation "x <? y" := (flt x y) : float_scope.
Notation "x >? y" := (fgt x y) : float_scope.
Notation "x =? y" := (feq x y) : float_scope.
Notation "x <=? y" := (fle x y) : float_scope.

Global Instance pyfloat_eq_dec : EqDecision pyfloat.
Proof.
  intros x y. destruct x as [a| | |], y as [b| | |];
    try (right; discriminate); try (left; reflexivity).
  destruct (Qc_eq_dec a b) as [E|Hne]; [left; exact (f_equal Fin E)|].
  right. intros [= E]. exact (Hne E).
Defined.

(** ** The pandas operations the engine calls *)

Module Pandas.

(** A [Series] of doubles; all series of one frame share its index, so
    element-wise arithmetic is position by position. *)
Abbreviation Series := (list pyfloat).

(** Every entry is a number: neither missing nor infinite. *)
Definition all_finite (s : Series) : Prop :=
  Forall (fun x => is_finite x = true) s.

Definition series_add (a b : Series) : Series := zip_with fadd a b.
Definition series_sub (a b : Series) : Series := zip_with fsub a b.
Definition series_div (a b : Series) : Series := zip_with fdiv a b.
Definition series_add_scalar (a : Series) (c : pyfloat) : Series :=
  (fun x => fadd x c) <$> a.
Definition series_mul_scalar (a : Series) (c : pyfloat) : Series :=
  (fun x => fmul x c) <$> a.
Definition scalar_mul_series (c : pyfloat) (a : Series) : Series :=
  (fun x => fmul c x) <$> a.

(** [alpha = 2 / (span + 1)]. *)
Definition alpha_of_span (span : Z) : pyfloat :=
  (of_Z 2 / (of_Z span + of_Z 1))%F.

(** One step of [ewm(adjust=False, ignore_na=False).mean()]: the state is
    the running average [weighted] and the weight [old_wt] the average
    carries (1 after an observation; it decays over a run of missing
    values, which are skipped).  Without missing values the step is
    [weighted := ((1-alpha)*weighted + alpha*cur) / ((1-alpha) + alpha)].
    (pandas leaves [weighted] as it is when [cur] equals it, to spare a
    rounding; the formula gives that same value.) *)
Definition ewm_step (alpha : pyfloat) (st : pyfloat * pyfloat) (cur : pyfloat)
  : pyfloat * pyfloat :=
  let '(weighted, old_wt) := st in
  if isnan weighted then
    (if isnan cur then weighted else cur, old_wt)
  else
    let old_wt := (old_wt * (of_Z 1 - alpha))%F in
    if isnan cur then (weighted, old_wt)
    else (((old_wt * weighted + alpha * cur) / (old_wt + alpha))%F, of_Z 1).

Fixpoint ewm_loop (alpha : pyfloat) (st : pyfloat * pyfloat) (vals : Series)
  : Series :=
  match vals with
  | [] => []
  | cur :: rest =>
      let st' := ewm_step alpha st cur in
      fst st' :: ewm_loop alpha st' rest
  end.

(** [BaseWindow._prep_values], through which [ewm] and [rolling] read
    their input: every infinity is replaced by the missing value before
    the kernel runs. *)
Definition inf_to_nan (x : pyfloat) : pyfloat := if is_inf x then NaN else x.
Definition prep_values (s : Series) : Series := inf_to_nan <$> s.

(** The EWM kernel on prepared values: the first output is the first
    input. *)
Definition ewm_kernel (alpha : pyfloat) (vals : Series) : Series :=
  match vals with
  | [] => []
  | v0 :: rest => v0 :: ewm_loop alpha (v0, of_Z 1) rest
  end.

(** [s.ewm(span=span, adjust=False).mean()]. *)
Definition ewm_mean (span : Z) (vals : Series) : Series :=
  ewm_kernel (alpha_of_span span) (prep_values vals).

(** The rows [i-n+1 .. i] of a series. *)
Definition window (n : nat) (s : Series) (i : nat) : Series :=
  take n (drop (S i - n) s).

(** The rolling kernel on prepared values, with the default
    [min_periods = n]: missing while fewer than [n] rows are available, and
    missing when the window holds a missing value. *)
Definition rolling_kernel (n : nat) (agg : Series -> pyfloat) (s : Series)
  : Series :=
  imap (fun i _ =>
          if decide (S i < n)%nat then NaN
          else let w := window n s i in
               if existsb isnan w then NaN else agg w) s.

(** [s.rolling(n).agg()]. *)
Definition rolling (n : nat) (agg : Series -> pyfloat) (s : Series) : Series :=
  rolling_kernel n agg (prep_values s).

Definition rolling_min (n : nat) : Series -> Series :=
  rolling n (foldr fmin PInf).
Definition rolling_max (n : nat) : Series -> Series :=
  rolling n (foldr fmax NInf).

End Pandas.
Export Pandas.

(** ** The indicator engine: [compute_macd_kdj] *)

Module Engine.

(** A row of the price frame; [date] is a timestamp in microseconds. *)
Record bar : Type := Bar {
  date : Z;
  high : pyfloat;
  low : pyfloat;
  close : pyfloat
}.

(** The frame the engine returns: the input rows and the six new columns. *)
Record indicators : Type := Indicators {
  rows : list bar;
  DIF : Series;
  DEA : Series;
  MACD : Series;
  K : Series;
  D : Series;
  J : Series
}.

Definition col (f : bar -> pyfloat) (df : list bar) : Series := f <$> df.

(** A row of ordinary market data: three finite prices, the close within
    the day's range.  The engine does not check it. *)
Definition well_formed_bar (b : bar) : bool :=
  is_finite (high b) && is_finite (low b) && is_finite (close b)
  && (low b <=? close b)%F && (close b <=? high b)%F.

Definition short_ema (df : list bar) : Series := ewm_mean 12 (col close df).
Definition long_ema (df : list bar) : Series := ewm_mean 26 (col close df).
Definition dif (df : list bar) : Series :=
  series_sub (short_ema df) (long_ema df).
Definition dea (df : list bar) : Series := ewm_mean 9 (dif df).
Definition macd_bar (df : list bar) : Series :=
  scalar_mul_series (of_Z 2) (series_sub (dif df) (dea df)).

Definition n : nat := 9.
Definition low_min (df : list bar) : Series := rolling_min n (col low df).
Definition high_max (df : list bar) : Series := rolling_max n (col high df).

(** [rsv = (close - low_min) / (high_max - low_min) * 100]. *)
Definition rsv (df : list bar) : Series :=
  series_mul_scalar
    (series_div (series_sub (col close df) (low_min df))
                (series_sub (high_max df) (low_min df)))
    (of_Z 100).

(** The body of the [for i, r in enumerate(rsv)] loop: it appends one value
    to [k_list] and one to [d_list]. *)
Definition kd_step (i : nat) (r : pyfloat) (st : list pyfloat * list pyfloat)
  : list pyfloat * list pyfloat :=
  let '(k_list, d_list) := st in
  if isnan r then (k_list ++ [NaN], d_list ++ [NaN])
  else
    let '(k_prev, d_prev) :=
      if (if decide (i = 0%nat) then true else isnan (List.last k_list NaN))
      then (of_Z 50, of_Z 50)
      else (List.last k_list NaN, List.last d_list NaN) in
    let k_now := (of_Z 2 / of_Z 3 * k_prev + of_Z 1 / of_Z 3 * r)%F in
    let d_now := (of_Z 2 / of_Z 3 * d_prev + of_Z 1 / of_Z 3 * k_now)%F in
    (k_list ++ [k_now], d_list ++ [d_now]).

Fixpoint kd_loop (i : nat) (rs : Series) (st : list pyfloat * list pyfloat)
  : list pyfloat * list pyfloat :=
  match rs with
  | [] => st
  | r :: rest => kd_loop (S i) rest (kd_step i r st)
  end.

(** The state when the loop reaches index [j]: the lists built from the
    first [j] values. *)
Definition kd_state (rs : Series) (j : nat) : list pyfloat * list pyfloat :=
  kd_loop 0 (take j rs) ([], []).

(** The two smoothing formulas of the loop body, [k_now] from [k_prev] and
    [r], and [d_now] from [d_prev] and [k_now]. *)
Definition smooth_k (k_prev r : pyfloat) : pyfloat :=
  (of_Z 2 / of_Z 3 * k_prev + of_Z 1 / of_Z 3 * r)%F.
Definition smooth_d (d_prev k_now : pyfloat) : pyfloat :=
  (of_Z 2 / of_Z 3 * d_prev + of_Z 1 / of_Z 3 * k_now)%F.

Definition kd_lists (df : list bar) : list pyfloat * list pyfloat :=
  kd_loop 0 (rsv df) ([], []).

Definition k_list (df : list bar) : list pyfloat := fst (kd_lists df).
Definition d_list (df : list bar) : list pyfloat := snd (kd_lists df).

(** [[3*k - 2*d if not np.isnan(k) else np.nan for k, d in zip(...)]]. *)
Definition j_list (df : list bar) : list pyfloat :=
  zip_with (fun k d => if negb (isnan k) then (of_Z 3 * k - of_Z 2 * d)%F else NaN)
           (k_list df) (d_list df).

Definition compute_macd_kdj (df : list bar) : indicators :=
  {| rows := df;
     DIF := dif df;
     DEA := dea df;
     MACD := macd_bar df;
     K := k_list df;
     D := d_list df;
     J := j_list df |}.

End Engine.
Export Engine.

(** ** Signal derivation: the last block of [main] *)

Module Signals.

(** [price_df.iloc[-1]]: the last row of the frame, [None] for the
    [IndexError] an empty frame raises. *)
Record indicator_row : Type := Row {
  row_DIF : pyfloat;
  row_DEA : pyfloat;
  row_MACD : pyfloat;
  row_K : pyfloat;
  row_D : pyfloat;
  row_J : pyfloat
}.

Definition iloc_last (ind : indicators) : option indicator_row :=
  dif_ ← last (DIF ind); dea_ ← last (DEA ind); macd_ ← last (MACD ind);
  k_ ← last (K ind); d_ ← last (D ind); j_ ← last (J ind);
  Some (Row dif_ dea_ macd_ k_ d_ j_).

Inductive signal : Type :=
| BullishMomentum   (* "MACD golden cross / upward momentum" *)
| BearishMomentum   (* "MACD death cross / downward momentum" *)
| Oversold          (* "KDJ oversold zone" *)
| Overbought.       (* "KDJ overbought zone" *)

Global Instance signal_eq_dec : EqDecision signal.
Proof. solve_decision. Defined.

Definition signal_text (s : signal) : string :=
  match s with
  | BullishMomentum => "MACD金叉/上涨动能"
  | BearishMomentum => "MACD死叉/下跌动能"
  | Oversold => "KDJ超卖区"
  | Overbought => "KDJ超买区"
  end.

(** The two [if]/[elif] pairs that fill the [signals] list. *)
Definition signals (last_row : indicator_row) : list signal :=
  (if (row_DIF last_row >? row_DEA last_row)%F && (row_MACD last_row >? of_Z 0)%F
   then [BullishMomentum]
   else if (row_DIF last_row <? row_DEA last_row)%F && (row_MACD last_row <? of_Z 0)%F
   then [BearishMomentum]
   else [])
  ++
  (if (row_J last_row <? of_Z 20)%F then [Oversold]
   else if (row_J last_row >? of_Z 80)%F then [Overbought]
   else []).

(** What the page shows: [st.success] with the joined texts, or [st.info]
    with "no clear signal". *)
Inductive banner : Type :=
| Success (text : string)
| Info (text : string).

Definition no_clear_signal : string := "暂无明显信号".

Fixpoint join (sep : string) (l : list string) : string :=
  match l with
  | [] => EmptyString
  | [s] => s
  | s :: rest => (s ++ sep ++ join sep rest)%string
  end.

Definition signal_banner (sigs : list signal) : banner :=
  match sigs with
  | [] => Info no_clear_signal
  | _ :: _ => Success (join "，" (signal_text <$> sigs))
  end.

Definition report (last_row : indicator_row) : banner :=
  signal_banner (signals last_row).

(** The condition the specification attaches to each signal, each one on
    its own (the code reaches the second signal of a pair only through an
    [elif]). *)
Definition spec_condition (s : signal) (last_row : indicator_row) : bool :=
  match s with
  | BullishMomentum =>
      (row_DIF last_row >? row_DEA last_row)%F && (row_MACD last_row >? of_Z 0)%F
  | BearishMomentum =>
      (row_DIF last_row <? row_DEA last_row)%F && (row_MACD last_row <? of_Z 0)%F
  | Oversold => (row_J last_row <? of_Z 20)%F
  | Overbought => (row_J last_row >? of_Z 80)%F
  end.

(** The signal sets a last row can produce: at most one momentum signal,
    followed by at most one zone signal. *)
Definition momentum_outcomes : list (list signal) :=
  [[]; [BullishMomentum]; [BearishMomentum]].
Definition zone_outcomes : list (list signal) :=
  [[]; [Oversold]; [Overbought]].

(** A last row with the given DIF, DEA, MACD and J (K and D play no part
    in the signals). *)
Definition row_of (dif_ dea_ macd_ j_ : pyfloat) : indicator_row :=
  Row dif_ dea_ macd_ NaN NaN j_.

End Signals.
Export Signals.

(** ** Data acquisition: the synthetic fall-back *)

Module Acquisition.

(** A computation on a random generator's state. *)
Definition Rand (G A : Type) : Type := G -> A * G.
Definition ret {G A} (a : A) : Rand G A := fun g => (a, g).
Definition bind {G A B} (m : Rand G A) (f : A -> Rand G B) : Rand G B :=
  fun g => let '(a, g') := m g in f a g'.
Definition put {G} (g : G) : Rand G unit := fun _ => (tt, g).

Notation "'let*' x ':=' m 'in' k" := (bind m (fun x => k))
  (at level 10, x name, m at level 100, k at level 200).

(** The four entries of the metrics dictionary; [None] is Python's [None]. *)
Record metrics : Type := Metrics {
  pe_ratio : option pyfloat;            (* '市盈率' *)
  pb_ratio : option pyfloat;            (* '市净率' *)
  profit_growth : option pyfloat;       (* '净利润增长率' *)
  industry_pe : option pyfloat          (* '行业平均市盈率' *)
}.

Definition microseconds_per_day : Z := 86400000000.

(** [pd.date_range(end=today, periods=days)]: [days] daily timestamps, the
    last one [today] (microseconds, time of day kept). *)
Definition date_range (today : Z) (days : nat) : list Z :=
  (fun k => today - Z.of_nat (days - 1 - k) * microseconds_per_day)%Z
    <$> seq 0 days.

(** [np.cumsum]. *)
Fixpoint cumsum_from (acc : pyfloat) (xs : Series) : Series :=
  match xs with
  | [] => []
  | x :: rest => let acc' := (acc + x)%F in acc' :: cumsum_from acc' rest
  end.
Definition cumsum (xs : Series) : Series :=
  match xs with
  | [] => []
  | x :: rest => x :: cumsum_from x rest
  end.

Definition make_frame (dates : list Z) (highs lows closes : Series) : list bar :=
  zip_with (fun d hlc => Bar d hlc.1.1 hlc.1.2 hlc.2)
           dates (zip (zip highs lows) closes).

Section Synthetic.

(** What the model takes from the environment: Python's [hash] on strings,
    which is salted by the hash seed the interpreter process draws at
    start-up ([hash_seed]: one value per process), numpy's legacy global
    generator, its new-style [Generator], and [np.round(_, 2)]. *)
Variable py_hash : Z -> string -> Z.
Variable hash_seed : Z.
Variable Gen : Type.
Variable np_random_seed : Z -> Gen.
Variable np_random_randn : nat -> Rand Gen Series.
Variable np_random_rand : nat -> Rand Gen Series.
Variable Generator : Type.
Variable default_rng : Z -> Generator.
Variable uniform : pyfloat -> pyfloat -> Rand Generator pyfloat.
Variable np_round2 : pyfloat -> pyfloat.

(** [abs(hash(stock_code)) % (2 ** 32)]. *)
Definition seed_of (stock_code : string) : Z :=
  (Z.abs (py_hash hash_seed stock_code) mod 2 ^ 32)%Z.

(** The fall-back branch of [fetch_price_data], on the global generator. *)
Definition synthetic_prices (today : Z) (stock_code : string) (days : nat)
  : Rand Gen (list bar) :=
  let dates := date_range today days in
  let* _ := put (np_random_seed (seed_of stock_code)) in
  let* r := np_random_randn days in
  let price := series_add_scalar (cumsum r) (of_Z 100) in
  let* u1 := np_random_rand days in
  let high := series_add price (series_mul_scalar u1 (of_Z 2)) in
  let* u2 := np_random_rand days in
  let low := series_sub price (series_mul_scalar u2 (of_Z 2)) in
  ret (make_frame dates high low price).

(** The akshare library as the two fetchers see it: each field is the whole
    [try] block around a call, [None] when anything in it raises.  The
    financial block assigns three entries one after the other, so an
    exception can leave any of them unset. *)
Record akshare : Type := Akshare {
  stock_zh_a_daily : string -> nat -> option (list bar);
  stock_financial_analysis_indicator_em :
    string -> option pyfloat * option pyfloat * option pyfloat
}.

(** [fetch_price_data]; [ak = None] is [AK_AVAILABLE = False]. *)
Definition fetch_price_data (ak : option akshare) (today : Z)
    (stock_code : string) (days : nat) : Rand Gen (list bar) :=
  match ak ≫= (fun a => stock_zh_a_daily a stock_code days) with
  | Some df => ret df
  | None => synthetic_prices today stock_code days
  end.

Definition fill (current : option pyfloat) (draw : Rand Generator pyfloat)
  : Rand Generator pyfloat :=
  match current with
  | Some v => ret v
  | None => draw
  end.

(** [fetch_financial_metrics]: whatever akshare did not provide is drawn
    from a generator seeded by the ticker. *)
Definition fetch_financial_metrics (ak : option akshare) (stock_code : string)
  : metrics :=
  let '(pe0, pb0, growth0) :=
    match ak with
    | Some a => stock_financial_analysis_indicator_em a stock_code
    | None => (None, None, None)
    end in
  let rng := default_rng (seed_of stock_code) in
  fst ((let* pe := fill pe0
          (let* u := uniform (of_Z 10) (of_Z 30) in ret (np_round2 u)) in
        let* pb := fill pb0
          (let* u := uniform (of_Z 1) (of_Z 5) in ret (np_round2 u)) in
        let* growth := fill growth0
          (let* u := uniform (of_Z (-10)) (of_Z 30) in ret (np_round2 u)) in
        let* ind :=
          (let* u := uniform (of_Q (8 # 10)) (of_Q (12 # 10)) in
           ret (np_round2 (pe * u)%F)) in
        ret (Metrics (Some pe) (Some pb) (Some growth) (Some ind))) rng).

(** The run fell back to synthetic prices: the library is absent, or the
    fetch raised. *)
Definition price_fetch_failed (ak : option akshare) (stock_code : string)
    (days : nat) : Prop :=
  ak ≫= (fun a => stock_zh_a_daily a stock_code days) = None.

Definition metrics_fetch_failed (ak : option akshare) (stock_code : string)
  : Prop :=
  match ak with
  | Some a => stock_financial_analysis_indicator_em a stock_code = (None, None, None)
  | None => True
  end.

End Synthetic.

End Acquisition.
Export Acquisition.

(** ** Sample frames *)

Module Samples.

Definition mk_bar (h l c : Z) : bar := Bar 0 (of_Z h) (of_Z l) (of_Z c).

(** Ten rows with [high = close + 1] and [low = close - 1]. *)
Definition scenario : list bar :=
  (fun c => mk_bar (c + 1) (c - 1) c)
    <$> [100; 102; 101; 105; 107; 106; 110; 108; 112; 115]%Z.

(** Nine rows that never trade away from 10. *)
Definition flat_frame : list bar := replicate 9 (mk_bar 10 10 10).

(** The flat frame followed by a row that opens the range to [10 .. 12]. *)
Definition flat_then_open : list bar := flat_frame ++ [mk_bar 12 10 11].

(** Nine rows with [high = low = 10]; the last close is 11, above its
    row's high. *)
Definition flat_close_above : list bar :=
  replicate 8 (mk_bar 10 10 10) ++ [mk_bar 10 10 11].



(** The first eight rows of the scenario: one short of a full window. *)
Definition short_frame : list bar := take 8 scenario.

(** A single row whose close is missing. *)
Definition missing_close : list bar := [Bar 0 (of_Z 11) (of_Z 9) NaN].

(** Two rows, the close of the first one missing. *)
Definition missing_first_close : list bar :=
  [Bar 0 (of_Z 11) (of_Z 9) NaN; mk_bar 11 9 10].

(** Two rows, the second with an infinite high and close. *)
Definition infinite_close : list bar :=
  [mk_bar 11 9 10; Bar 0 PInf (of_Z 9) PInf].

End Samples.
Export Samples.

(** A stand-in environment to run the fall-back on: a counter for each of
    the two generators, and a hash that adds the first character to the
    salt. *)
Module ToyEnv.

Definition toy_hash (salt : Z) (s : string) : Z :=
  match s with
  | EmptyString => salt
  | String c _ => (salt + Z.of_nat (Ascii.nat_of_ascii c))%Z
  end.

Definition toy_seed (z : Z) : Z := z.
Definition toy_draws (k : nat) : Rand Z Series :=
  fun g => ((fun i => of_Z (g + Z.of_nat i)) <$> seq 0 k, (g + Z.of_nat k)%Z).
Definition toy_uniform (a b : pyfloat) : Rand Z pyfloat :=
  fun g => (a, (g + 1)%Z).

(** akshare installed, every call raising. *)
Definition ak_down : akshare :=
  Akshare (fun _ _ => None) (fun _ => (None, None, None)).

Definition toy_fetch (ak : option akshare) (today : Z) (g : Z) : list bar :=
  (fetch_price_data toy_hash 42 Z toy_seed toy_draws toy_draws
     ak today "600519" 3 g).1.

End ToyEnv.
Export ToyEnv.

(** ** Ranges and rounding *)

Module Ranges.

(** [lo <= x <= hi], false for a missing value. *)
Definition within (lo hi : Z) (x : pyfloat) : bool :=
  (of_Z lo <=? x)%F && (x <=? of_Z hi)%F.

(** A value is missing or lies in a range. *)
Definition missing_or_within (lo hi : Z) (x : pyfloat) : Prop :=
  x = NaN \/ within lo hi x = true.

(** Round to the nearest integer, ties to the even one ([np.rint]). *)
Definition rint (q : Q) : Z :=
  let f := Qfloor q in
  match Qcompare (q - inject_Z f) (1 # 2) with
  | Lt => f
  | Gt => (f + 1)%Z
  | Eq => if Z.even f then f else (f + 1)%Z
  end.

(** [np.round(x, 2)]: [rint(x * 100) / 100]; infinities and the missing
    value are left alone. *)
Definition round2 (x : pyfloat) : pyfloat :=
  match x with
  | Fin q => (of_Z (rint (this q * 100)) / of_Z 100)%F
  | _ => x
  end.

End Ranges.
Export Ranges.

(** ** The page: [main] *)

Module Page.

Inductive pyerror : Type :=
| IndexError    (* [iloc[-1]] on an empty frame *)
| TypeError.    (* a [None] under the [:.2f] format of a metric card *)

(** The four metric cards: each entry of the dictionary under [:.2f]. *)
Record cards : Type := Cards {
  card_pe : pyfloat;
  card_pb : pyfloat;
  card_growth : pyfloat;
  card_industry_pe : pyfloat
}.

Definition metric_cards (m : metrics) : option cards :=
  pe ← pe_ratio m; pb ← pb_ratio m; g ← profit_growth m; ind ← industry_pe m;
  Some (Cards pe pb g ind).

(** What a run of the script leaves on the page. *)
Inductive page : Type :=
| AskForCode   (* the warning for an empty stock code, then [return] *)
| Waiting      (* the button was not pressed *)
| Analysis (metric_row : cards) (price_df : indicators) (signal : banner).

Inductive outcome : Type :=
| Shown (p : page)
| Raised (e : pyerror).

(** [fetch_price_data(stock_code)] is called with the default [days]. *)
Definition default_days : nat := 250.

Section Main.

Variable py_hash : Z -> string -> Z.
Variable hash_seed : Z.
Variable Gen : Type.
Variable np_random_seed : Z -> Gen.
Variable np_random_randn : nat -> Rand Gen Series.
Variable np_random_rand : nat -> Rand Gen Series.
Variable Generator : Type.
Variable default_rng : Z -> Generator.
Variable uniform : pyfloat -> pyfloat -> Rand Generator pyfloat.
Variable np_round2 : pyfloat -> pyfloat.

(** [main], up to the signal banner: the stock code comes from the text
    input, [pressed] from the button.  The chart calls before the banner
    and the export step after it ([generate_report_excel] and the download
    button) are calls into plotly, streamlit and xlsxwriter on the frame
    that [Analysis] holds; they are not modelled, so [Raised] names the
    exceptions of the modelled steps only and [Shown] says what the page
    holds once the banner is drawn. *)
Definition main (ak : option akshare) (today : Z) (stock_code : string)
    (pressed : bool) : Rand Gen outcome :=
  if String.eqb stock_code EmptyString then ret (Shown AskForCode)
  else if negb pressed then ret (Shown Waiting)
  else
    let* price_df :=
      fetch_price_data py_hash hash_seed Gen np_random_seed np_random_randn
        np_random_rand ak today stock_code default_days in
    let price_df := compute_macd_kdj price_df in
    let metrics :=
      fetch_financial_metrics py_hash hash_seed Generator default_rng uniform
        np_round2 ak stock_code in
    ret (match metric_cards metrics with
         | None => Raised TypeError
         | Some metric_row =>
             match iloc_last price_df with
             | None => Raised IndexError
             | Some last_row =>
                 Shown (Analysis metric_row price_df (report last_row))
             end
         end).

End Main.

End Page.
Export Page.

(** ** The overview tab of [app.py] *)

Module Overview.

(** [s.iloc[-k]] for [k >= 1]: [None] for the [IndexError] of a series
    shorter than [k]. *)
Definition iloc_neg (s : Series) (k : nat) : option pyfloat :=
  if decide (1 <= k <= length s)%nat then s !! (length s - k)%nat else None.

(** [(a / b - 1) * 100]. *)
Definition pct_change (a b : pyfloat) : pyfloat :=
  ((a / b - of_Z 1) * of_Z 100)%F.

(** [(close.iloc[-1] / close.iloc[-k] - 1) * 100 if len(px) > k else nan]. *)
Definition chg_back (close : Series) (k : nat) : option pyfloat :=
  if decide (k < length close)%nat
  then a ← iloc_neg close 1; b ← iloc_neg close k; Some (pct_change a b)
  else Some NaN.

Definition chg_1m (close : Series) : option pyfloat := chg_back close 21.
Definition chg_3m (close : Series) : option pyfloat := chg_back close 63.

(** [(close.iloc[-1] / close.iloc[0] - 1) * 100 if len(px) > 1 else nan]. *)
Definition chg_1y (close : Series) : option pyfloat :=
  if decide (1 < length close)%nat
  then a ← iloc_neg close 1; b ← close !! 0%nat; Some (pct_change a b)
  else Some NaN.

(** The three cards of the overview: latest close, three-month change and
    one-year change. *)
Record overview_cards : Type := OverviewCards {
  latest_close : pyfloat;
  change_3m : pyfloat;
  change_1y : pyfloat
}.

(** The metrics block of the overview tab, in the order the script runs
    it: the three changes first (the one-month change is computed and not
    shown), then the cards; [None] when a step raises. *)
Definition overview (close : Series) : option overview_cards :=
  _ ← chg_1m close;
  c3 ← chg_3m close;
  c1y ← chg_1y close;
  last_close ← iloc_neg close 1;
  Some (OverviewCards last_close c3 c1y).

End Overview.
Export Overview.

(** ** What the properties below ask of the generators and of [np.round] *)

Module Laws.

(** [draw(k)] returns an array of [k] numbers. *)
Definition length_law {G} (draw : nat -> Rand G Series) : Prop :=
  forall k g, length (draw k g).1 = k.

(** Every draw is a number ([randn]). *)
Definition finite_draws {G} (draw : nat -> Rand G Series) : Prop :=
  forall k g, all_finite (draw k g).1.

(** Every draw lies between 0 and 1 ([rand]). *)
Definition unit_draws {G} (draw : nat -> Rand G Series) : Prop :=
  forall k g, Forall (fun u => within 0 1 u = true) (draw k g).1.

(** [uniform(lo, hi)] returns a number between its bounds. *)
Definition uniform_in_range {G}
    (uniform : pyfloat -> pyfloat -> Rand G pyfloat) : Prop :=
  forall lo hi g, (lo <=? hi)%F = true ->
    (lo <=? (uniform lo hi g).1)%F = true
    /\ ((uniform lo hi g).1 <=? hi)%F = true.

(** Rounding does not leave an interval with integer bounds. *)
Definition keeps_integer_bounds (round : pyfloat -> pyfloat) : Prop :=
  forall lo hi x, within lo hi x = true -> within lo hi (round x) = true.

End Laws.
Export Laws.

(** Further stand-ins: draws of one half, for a generator of numbers in
    [0, 1). *)
Module ToyDraws.

Definition half_draws (k : nat) : Rand Z Series :=
  fun g => (replicate k (of_Q (1 # 2)), (g + Z.of_nat k)%Z).

Definition toy_main (ak : option akshare) (stock_code : string)
    (pressed : bool) (g : Z) : outcome * Z :=
  main toy_hash 42 Z toy_seed toy_draws half_draws Z toy_seed toy_uniform
    round2 ak 0 stock_code pressed g.

End ToyDraws.
Export ToyDraws.

(** * Properties *)

(** Closed facts (about sample frames, about constants) are settled by
    evaluating the decision procedure for equality. *)
Ltac by_evaluation := apply (bool_decide_unpack _); vm_compute; exact I.

(** ** Facts about doubles *)

Section FloatFacts.

Implicit Types x y z : pyfloat.
Implicit Types a b c : Qc.

Lemma isnan_true x : isnan x = true <-> x = NaN.
Proof. destruct x; simpl; split; congruence. Qed.

Lemma isnan_false x : isnan x = false <-> x <> NaN.
Proof. destruct x; simpl; split; congruence. Qed.

Lemma is_finite_Fin x : is_finite x = true <-> exists a, x = Fin a.
Proof.
  destruct x; simpl; split; try congruence; eauto; intros [? ?]; congruence.
Qed.

Lemma fadd_nan_l y : (NaN + y)%F = NaN.
Proof. reflexivity. Qed.



Lemma fsub_nan_r x : (x - NaN)%F = NaN.
Proof. destruct x; reflexivity. Qed.

Lemma fmul_nan_l y : (NaN * y)%F = NaN.
Proof. reflexivity. Qed.


Lemma fdiv_nan_l y : (NaN / y)%F = NaN.
Proof. reflexivity. Qed.


Lemma sgn_Eq a : sgn a = Eq <-> a = 0%Qc.
Proof. unfold sgn. symmetry. apply Qceq_alt. Qed.

Lemma sgn_nonzero a : a <> 0%Qc -> sgn a <> Eq.
Proof. intros H E. apply H, sgn_Eq, E. Qed.

Lemma fdiv_Fin a b : b <> 0%Qc -> (Fin a / Fin b)%F = Fin (a / b)%Qc.
Proof.
  intros Hb. simpl. pose proof (sgn_nonzero b Hb).
  destruct (sgn b); congruence.
Qed.

Lemma fsub_Fin a b : (Fin a - Fin b)%F = Fin (a - b)%Qc.
Proof. reflexivity. Qed.

Lemma fsub_diag_Fin a : (Fin a - Fin a)%F = Fin 0.
Proof. rewrite fsub_Fin. f_equal. ring. Qed.

(** [x - x] is never a non-zero number: zero for a number, [nan] for an
    infinity. *)
Lemma fsub_diag x : (x - x)%F = Fin 0 \/ (x - x)%F = NaN.
Proof. destruct x; [left; apply fsub_diag_Fin | right .. ]; reflexivity. Qed.

Lemma feq_true x y : (x =? y)%F = true -> x = y /\ x <> NaN.
Proof.
  destruct x as [a| | |], y as [b| | |]; simpl; try discriminate;
    try (split; [reflexivity | discriminate]).
  destruct (a ?= b)%Qc eqn:E; try discriminate.
  intros _. apply Qceq_alt in E. subst. split; [reflexivity | discriminate].
Qed.

Lemma flt_asym x y : (x <? y)%F = true -> (y <? x)%F = false.
Proof.
  destruct x as [a| | |], y as [b| | |]; simpl; try congruence.
  unfold Qccompare. rewrite <- (Qcompare_antisym a b).
  destruct (a ?= b)%Q; simpl; congruence.
Qed.

Lemma flt_nan_l y : (NaN <? y)%F = false.
Proof. reflexivity. Qed.

Lemma flt_nan_r x : (x <? NaN)%F = false.
Proof. destruct x; reflexivity. Qed.

Lemma fadd_finite x y :
  is_finite x = true -> is_finite y = true -> is_finite (x + y)%F = true.
Proof. destruct x, y; simpl; congruence. Qed.

Lemma fsub_finite x y :
  is_finite x = true -> is_finite y = true -> is_finite (x - y)%F = true.
Proof. destruct x, y; simpl; congruence. Qed.

Lemma fmul_finite x y :
  is_finite x = true -> is_finite y = true -> is_finite (x * y)%F = true.
Proof. destruct x, y; simpl; congruence. Qed.

End FloatFacts.

(** ** The smoothing loop, index by index *)

Section KdLoop.

Implicit Types rs : Series.
Implicit Types st : list pyfloat * list pyfloat.

Lemma kd_step_appends i r st :
  exists k d, kd_step i r st = (st.1 ++ [k], st.2 ++ [d]).
Proof.
  destruct st as [kl dl]. unfold kd_step.
  destruct (isnan r); [eauto|].
  destruct (if decide (i = 0%nat) then true else isnan (List.last kl NaN)); eauto.
Qed.

Lemma kd_loop_extends rs : forall i st,
  exists ks ds, kd_loop i rs st = (st.1 ++ ks, st.2 ++ ds)
                /\ length ks = length rs /\ length ds = length rs.
Proof.
  induction rs as [|r rs IH]; intros i st; simpl.
  - exists [], []. rewrite !app_nil_r. destruct st; auto.
  - destruct (kd_step_appends i r st) as (k & d & Hstep).
    destruct (IH (S i) (kd_step i r st)) as (ks & ds & Hloop & Hk & Hd).
    exists (k :: ks), (d :: ds). rewrite Hloop, Hstep. simpl.
    rewrite <- !app_assoc. simpl. auto.
Qed.

Lemma kd_loop_app rs1 : forall rs2 i st,
  kd_loop i (rs1 ++ rs2) st = kd_loop (i + length rs1) rs2 (kd_loop i rs1 st).
Proof.
  induction rs1 as [|r rs1 IH]; intros rs2 i st; simpl.
  - f_equal. lia.
  - rewrite IH. f_equal. lia.
Qed.

Lemma kd_loop_length rs :
  length (kd_loop 0 rs ([], [])).1 = length rs
  /\ length (kd_loop 0 rs ([], [])).2 = length rs.
Proof.
  destruct (kd_loop_extends rs 0 ([], [])) as (ks & ds & -> & Hk & Hd).
  simpl. auto.
Qed.

Lemma kd_state_length rs j :
  (j <= length rs)%nat ->
  length (kd_state rs j).1 = j /\ length (kd_state rs j).2 = j.
Proof.
  intros Hj. unfold kd_state.
  destruct (kd_loop_length (take j rs)) as [-> ->].
  rewrite length_take. lia.
Qed.

(** The lists are only appended to: the state at [j] is a prefix of the
    final lists. *)
Lemma kd_state_prefix rs j :
  (j <= length rs)%nat ->
  (kd_state rs j).1 = take j (kd_loop 0 rs ([], [])).1
  /\ (kd_state rs j).2 = take j (kd_loop 0 rs ([], [])).2.
Proof.
  intros Hj. destruct (kd_state_length rs j Hj) as [Hk Hd].
  assert (kd_loop 0 rs ([], [])
          = kd_loop (0 + length (take j rs)) (drop j rs) (kd_state rs j)) as ->.
  { rewrite <- (take_drop j rs) at 1. apply kd_loop_app. }
  destruct (kd_loop_extends (drop j rs) (0 + length (take j rs)) (kd_state rs j))
    as (ks & ds & -> & _ & _).
  simpl. split.
  - rewrite <- Hk at 2. symmetry. apply take_app_length.
  - rewrite <- Hd at 2. symmetry. apply take_app_length.
Qed.

Lemma kd_state_S rs j r :
  rs !! j = Some r -> kd_state rs (S j) = kd_step j r (kd_state rs j).
Proof.
  intros Hr. unfold kd_state.
  rewrite (take_S_r _ _ _ Hr), kd_loop_app. simpl.
  f_equal. apply lookup_lt_Some in Hr. rewrite length_take. lia.
Qed.

Lemma lookup_last_take (l : list pyfloat) j x :
  l !! j = Some x -> List.last (take (S j) l) NaN = x.
Proof. intros H. rewrite (take_S_r _ _ _ H). apply last_last. Qed.

Lemma lookup_of_take_snoc (l pre : list pyfloat) j x :
  length pre = j -> take (S j) l = pre ++ [x] -> l !! j = Some x.
Proof.
  intros Hlen Htake.
  rewrite <- (lookup_take_lt l (S j) j) by lia.
  rewrite Htake, lookup_app_r by lia.
  replace (j - length pre)%nat with 0%nat by lia. reflexivity.
Qed.

(** What the loop stores at index [j], in terms of the state it has
    reached there. *)
Lemma kd_loop_at rs j r k d :
  rs !! j = Some r ->
  kd_step j r (kd_state rs j) = ((kd_state rs j).1 ++ [k], (kd_state rs j).2 ++ [d]) ->
  (kd_loop 0 rs ([], [])).1 !! j = Some k
  /\ (kd_loop 0 rs ([], [])).2 !! j = Some d.
Proof.
  intros Hr Hstep. pose proof (lookup_lt_Some _ _ _ Hr) as Hj.
  destruct (kd_state_prefix rs (S j)) as [Hk Hd]; [lia|].
  destruct (kd_state_length rs j) as [Lk Ld]; [lia|].
  rewrite (kd_state_S _ _ _ Hr), Hstep in Hk, Hd. simpl in Hk, Hd.
  split.
  - apply (lookup_of_take_snoc _ (kd_state rs j).1); [exact Lk | symmetry; exact Hk].
  - apply (lookup_of_take_snoc _ (kd_state rs j).2); [exact Ld | symmetry; exact Hd].
Qed.

Lemma kd_loop_nan rs j :
  rs !! j = Some NaN ->
  (kd_loop 0 rs ([], [])).1 !! j = Some NaN
  /\ (kd_loop 0 rs ([], [])).2 !! j = Some NaN.
Proof.
  intros Hr. apply (kd_loop_at rs j NaN); [exact Hr|].
  destruct (kd_state rs j). reflexivity.
Qed.

Lemma kd_loop_first rs r :
  rs !! 0%nat = Some r -> isnan r = false ->
  (kd_loop 0 rs ([], [])).1 !! 0%nat = Some (smooth_k (of_Z 50) r)
  /\ (kd_loop 0 rs ([], [])).2 !! 0%nat
     = Some (smooth_d (of_Z 50) (smooth_k (of_Z 50) r)).
Proof.
  intros Hr Hnan. apply (kd_loop_at rs 0 r); [exact Hr|].
  unfold kd_state. simpl. rewrite Hnan. reflexivity.
Qed.

Lemma kd_loop_reseed rs j r :
  rs !! (S j) = Some r -> isnan r = false ->
  (kd_loop 0 rs ([], [])).1 !! j = Some NaN ->
  (kd_loop 0 rs ([], [])).1 !! (S j) = Some (smooth_k (of_Z 50) r)
  /\ (kd_loop 0 rs ([], [])).2 !! (S j)
     = Some (smooth_d (of_Z 50) (smooth_k (of_Z 50) r)).
Proof.
  intros Hr Hnan Hprev. apply (kd_loop_at rs (S j) r); [exact Hr|].
  pose proof (lookup_lt_Some _ _ _ Hr) as Hj.
  destruct (kd_state_prefix rs (S j)) as [Hk Hd]; [lia|].
  destruct (kd_state rs (S j)) as [kl dl]. simpl in *. subst kl dl.
  rewrite Hnan. rewrite (lookup_last_take _ _ _ Hprev). reflexivity.
Qed.

Lemma kd_loop_continue rs j r k_prev d_prev :
  rs !! (S j) = Some r -> isnan r = false ->
  (kd_loop 0 rs ([], [])).1 !! j = Some k_prev -> isnan k_prev = false ->
  (kd_loop 0 rs ([], [])).2 !! j = Some d_prev ->
  (kd_loop 0 rs ([], [])).1 !! (S j) = Some (smooth_k k_prev r)
  /\ (kd_loop 0 rs ([], [])).2 !! (S j)
     = Some (smooth_d d_prev (smooth_k k_prev r)).
Proof.
  intros Hr Hnan Hk Hknan Hd. apply (kd_loop_at rs (S j) r); [exact Hr|].
  pose proof (lookup_lt_Some _ _ _ Hr) as Hj.
  destruct (kd_state_prefix rs (S j)) as [Ek Ed]; [lia|].
  destruct (kd_state rs (S j)) as [kl dl]. simpl in *. subst kl dl.
  rewrite Hnan. rewrite (lookup_last_take _ _ _ Hk), (lookup_last_take _ _ _ Hd).
  rewrite Hknan. reflexivity.
Qed.

End KdLoop.

(** ** The pandas operations: lengths and entries *)

Section PandasFacts.

Implicit Types s vals : Series.

Lemma inf_to_nan_finite x : is_finite x = true -> inf_to_nan x = x.
Proof. destruct x; (discriminate || reflexivity). Qed.

Lemma inf_to_nan_defined x : inf_to_nan x <> NaN -> inf_to_nan x = x.
Proof. destruct x; cbn; intros H; congruence. Qed.

Lemma prep_values_length s : length (prep_values s) = length s.
Proof. apply length_fmap. Qed.

Lemma prep_values_lookup s i : prep_values s !! i = inf_to_nan <$> s !! i.
Proof. apply list_lookup_fmap. Qed.

Lemma prep_values_take s k : prep_values (take k s) = take k (prep_values s).
Proof. apply fmap_take. Qed.

(** A series of numbers is read as it is. *)
Lemma prep_values_finite s : all_finite s -> prep_values s = s.
Proof.
  intros Hs. induction Hs as [|x s Hx _ IH]; [reflexivity|].
  cbn [prep_values fmap list_fmap]. fold (prep_values s).
  rewrite IH, (inf_to_nan_finite x Hx). reflexivity.
Qed.

Lemma ewm_loop_length alpha vals : forall st,
  length (ewm_loop alpha st vals) = length vals.
Proof. induction vals as [|v vals IH]; intros st; simpl; [|rewrite IH]; reflexivity. Qed.

Lemma ewm_kernel_length alpha vals : length (ewm_kernel alpha vals) = length vals.
Proof. destruct vals; simpl; [|rewrite ewm_loop_length]; reflexivity. Qed.

Lemma ewm_mean_length span vals : length (ewm_mean span vals) = length vals.
Proof. unfold ewm_mean. rewrite ewm_kernel_length. apply prep_values_length. Qed.

Lemma rolling_length n agg s : length (rolling n agg s) = length s.
Proof. unfold rolling, rolling_kernel. rewrite length_imap. apply prep_values_length. Qed.

Lemma rolling_lookup n agg s i :
  rolling n agg s !! i
  = (fun _ => if decide (S i < n)%nat then NaN
              else if existsb isnan (window n (prep_values s) i) then NaN
                   else agg (window n (prep_values s) i)) <$> s !! i.
Proof.
  unfold rolling, rolling_kernel. rewrite list_lookup_imap, prep_values_lookup.
  destruct (s !! i); reflexivity.
Qed.

(** While the window has not filled, the rolling value is missing. *)
Lemma rolling_warmup n agg s i x :
  (S i < n)%nat -> rolling n agg s !! i = Some x -> x = NaN.
Proof.
  intros Hi. rewrite rolling_lookup. destruct (s !! i); simpl; [|discriminate].
  destruct (decide (S i < n)%nat); [congruence | lia].
Qed.

End PandasFacts.

(** ** The engine's columns *)

Section EngineFacts.

Implicit Types df : list bar.

Lemma col_length f df : length (col f df) = length df.
Proof. apply length_fmap. Qed.

Lemma dif_length df : length (dif df) = length df.
Proof.
  unfold dif, series_sub, short_ema, long_ema.
  rewrite length_zip_with, !ewm_mean_length, col_length. lia.
Qed.

Lemma dea_length df : length (dea df) = length df.
Proof. unfold dea. rewrite ewm_mean_length. apply dif_length. Qed.

Lemma macd_bar_length df : length (macd_bar df) = length df.
Proof.
  unfold macd_bar, scalar_mul_series, series_sub.
  rewrite length_fmap, length_zip_with, dif_length, dea_length. lia.
Qed.

Lemma low_min_length df : length (low_min df) = length df.
Proof. unfold low_min, rolling_min. rewrite rolling_length. apply col_length. Qed.

Lemma high_max_length df : length (high_max df) = length df.
Proof. unfold high_max, rolling_max. rewrite rolling_length. apply col_length. Qed.

Lemma rsv_length df : length (rsv df) = length df.
Proof.
  unfold rsv, series_mul_scalar, series_div, series_sub.
  rewrite length_fmap, !length_zip_with, col_length, low_min_length, high_max_length.
  lia.
Qed.

Lemma k_list_length df : length (k_list df) = length df.
Proof.
  unfold k_list, kd_lists. destruct (kd_loop_length (rsv df)) as [-> _].
  apply rsv_length.
Qed.

Lemma d_list_length df : length (d_list df) = length df.
Proof.
  unfold d_list, kd_lists. destruct (kd_loop_length (rsv df)) as [_ ->].
  apply rsv_length.
Qed.

Lemma j_list_length df : length (j_list df) = length df.
Proof.
  unfold j_list. rewrite length_zip_with, k_list_length, d_list_length. lia.
Qed.

(** The entry of [rsv] at a row, from the three series it combines. *)
Lemma rsv_lookup df i c lm hm :
  col close df !! i = Some c ->
  low_min df !! i = Some lm ->
  high_max df !! i = Some hm ->
  rsv df !! i = Some ((c - lm) / (hm - lm) * of_Z 100)%F.
Proof.
  intros Hc Hl Hh. unfold rsv, series_mul_scalar, series_div, series_sub.
  rewrite list_lookup_fmap, !lookup_zip_with, Hc, Hl, Hh. reflexivity.
Qed.

Lemma lookup_lt_is_Some' (l : list pyfloat) i :
  (i < length l)%nat -> exists x, l !! i = Some x.
Proof. intros H. apply lookup_lt_is_Some_2 in H. destruct H; eauto. Qed.

Lemma j_list_lookup df i k d :
  k_list df !! i = Some k -> d_list df !! i = Some d ->
  j_list df !! i
  = Some (if negb (isnan k) then (of_Z 3 * k - of_Z 2 * d)%F else NaN).
Proof.
  intros Hk Hd. unfold j_list. rewrite lookup_zip_with, Hk, Hd. reflexivity.
Qed.

End EngineFacts.

(** ** KDJ smoothing and the J line *)

Section Kdj.

Implicit Types df : list bar.

Lemma K_prefix df i :
  (i < length df)%nat ->
  K (compute_macd_kdj df) !! i = (kd_state (rsv df) (S i)).1 !! i.
Proof.
  intros Hi. simpl. unfold k_list, kd_lists.
  destruct (kd_state_prefix (rsv df) (S i)) as [-> _].
  - rewrite rsv_length. lia.
  - rewrite lookup_take_lt by lia. reflexivity.
Qed.

(** C2.  The smoothing loop visits the RSV values in ascending index order:
    the K entry at [i] is the one the loop has stored after the first
    [i + 1] values.  At an index whose RSV is defined and whose previous K
    is missing (or that has no previous index), K and D restart from 50:
    [K[i] = 2/3 * 50 + 1/3 * RSV[i]] and [D[i] = 2/3 * 50 + 1/3 * K[i]].  At
    every other index with a defined RSV,
    [K[i] = 2/3 * K[i-1] + 1/3 * RSV[i]] and
    [D[i] = 2/3 * D[i-1] + 1/3 * K[i]]. *)
Theorem kdj_smoothing_recurrence df i r :
  rsv df !! i = Some r ->
  isnan r = false ->
  let out := compute_macd_kdj df in
  K out !! i = (kd_loop 0 (take (S i) (rsv df)) ([], [])).1 !! i
  /\ ((i = 0%nat \/ exists j, i = S j /\ K out !! j = Some NaN) ->
      K out !! i = Some (of_Z 2 / of_Z 3 * of_Z 50 + of_Z 1 / of_Z 3 * r)%F
      /\ D out !! i
         = Some (of_Z 2 / of_Z 3 * of_Z 50
                 + of_Z 1 / of_Z 3
                   * (of_Z 2 / of_Z 3 * of_Z 50 + of_Z 1 / of_Z 3 * r))%F)
  /\ (forall j k_prev d_prev,
        i = S j ->
        K out !! j = Some k_prev -> isnan k_prev = false ->
        D out !! j = Some d_prev ->
        K out !! i = Some (of_Z 2 / of_Z 3 * k_prev + of_Z 1 / of_Z 3 * r)%F
        /\ D out !! i
           = Some (of_Z 2 / of_Z 3 * d_prev
                   + of_Z 1 / of_Z 3
                     * (of_Z 2 / of_Z 3 * k_prev + of_Z 1 / of_Z 3 * r))%F).
Proof.
  intros Hr Hnan out. split; [|split].
  - apply K_prefix. apply lookup_lt_Some in Hr. rewrite rsv_length in Hr. exact Hr.
  - intros [-> | (j & -> & Hprev)].
    + exact (kd_loop_first (rsv df) r Hr Hnan).
    + exact (kd_loop_reseed (rsv df) j r Hr Hnan Hprev).
  - intros j k_prev d_prev -> Hk Hknan Hd.
    exact (kd_loop_continue (rsv df) j r k_prev d_prev Hr Hnan Hk Hknan Hd).
Qed.

(** C6.  Where K and D are defined, [J[i] = 3*K[i] - 2*D[i]]; where K is
    missing, J is missing. *)
Theorem j_derivation df i k d :
  K (compute_macd_kdj df) !! i = Some k ->
  D (compute_macd_kdj df) !! i = Some d ->
  (isnan k = false -> isnan d = false ->
   J (compute_macd_kdj df) !! i = Some (of_Z 3 * k - of_Z 2 * d)%F)
  /\ (isnan k = true -> J (compute_macd_kdj df) !! i = Some NaN).
Proof.
  intros Hk Hd. simpl in *.
  rewrite (j_list_lookup df i k d Hk Hd).
  split.
  - intros Hknan _. rewrite Hknan. reflexivity.
  - intros Hknan. rewrite Hknan. reflexivity.
Qed.

End Kdj.

(** On the ten-row scenario the window fills at row 8, where K and D start
    from 50, and row 9 continues from row 8. *)
Lemma kdj_smoothing_recurrence_witness :
  rsv scenario !! 8%nat = Some (of_Q (650 # 7))
  /\ K (compute_macd_kdj scenario) !! 7%nat = Some NaN
  /\ K (compute_macd_kdj scenario) !! 8%nat
     = Some (of_Z 2 / of_Z 3 * of_Z 50 + of_Z 1 / of_Z 3 * of_Q (650 # 7))%F
  /\ rsv scenario !! 9%nat = Some (of_Q (375 # 4))
  /\ K (compute_macd_kdj scenario) !! 9%nat
     = Some (of_Z 2 / of_Z 3 * of_Q (450 # 7) + of_Z 1 / of_Z 3 * of_Q (375 # 4))%F.
Proof.
  assert (rsv scenario !! 8%nat = Some (of_Q (650 # 7))) as H8 by by_evaluation.
  assert (rsv scenario !! 9%nat = Some (of_Q (375 # 4))) as H9 by by_evaluation.
  assert (K (compute_macd_kdj scenario) !! 7%nat = Some NaN) as K7 by by_evaluation.
  assert (K (compute_macd_kdj scenario) !! 8%nat = Some (of_Q (450 # 7))) as K8
    by by_evaluation.
  assert (D (compute_macd_kdj scenario) !! 8%nat = Some (of_Q (1150 # 21))) as D8
    by by_evaluation.
  destruct (kdj_smoothing_recurrence scenario 8 _ H8 eq_refl) as (_ & Hseed & _).
  destruct (kdj_smoothing_recurrence scenario 9 _ H9 eq_refl) as (_ & _ & Hcont).
  refine (conj H8 (conj K7 (conj _ (conj H9 _)))).
  - apply Hseed. right. exists 7%nat. exact (conj eq_refl K7).
  - exact (proj1 (Hcont 8%nat _ _ eq_refl K8 eq_refl D8)).
Defined.

Lemma j_derivation_witness :
  K (compute_macd_kdj scenario) !! 9%nat = Some (of_Q (2075 # 28))
  /\ D (compute_macd_kdj scenario) !! 9%nat = Some (of_Q (15425 # 252))
  /\ J (compute_macd_kdj scenario) !! 9%nat
     = Some (of_Z 3 * of_Q (2075 # 28) - of_Z 2 * of_Q (15425 # 252))%F
  /\ K (compute_macd_kdj scenario) !! 0%nat = Some NaN
  /\ J (compute_macd_kdj scenario) !! 0%nat = Some NaN.
Proof.
  assert (K (compute_macd_kdj scenario) !! 9%nat = Some (of_Q (2075 # 28))) as K9
    by by_evaluation.
  assert (D (compute_macd_kdj scenario) !! 9%nat = Some (of_Q (15425 # 252))) as D9
    by by_evaluation.
  assert (K (compute_macd_kdj scenario) !! 0%nat = Some NaN) as K0 by by_evaluation.
  assert (D (compute_macd_kdj scenario) !! 0%nat = Some NaN) as D0 by by_evaluation.
  refine (conj K9 (conj D9 (conj _ (conj K0 _)))).
  - exact (proj1 (j_derivation scenario 9 _ _ K9 D9) eq_refl eq_refl).
  - exact (proj2 (j_derivation scenario 0 _ _ K0 D0) eq_refl).
Defined.

(** ** The exponential moving average on defined prices *)

Section Ewm.

Implicit Types vals : Series.
Implicit Types a w c : Qc.

(** Without missing values the state keeps weight 1 and the step is the
    textbook recurrence. *)
Lemma ewm_step_finite a w c :
  ewm_step (Fin a) (Fin w, of_Z 1) (Fin c)
  = ((Fin a * Fin c + (of_Z 1 - Fin a) * Fin w)%F, of_Z 1).
Proof.
  unfold ewm_step, of_Z, of_Q. simpl isnan. cbv iota.
  change (Q2Qc (inject_Z 1)) with 1%Qc.
  cbn [fmul fsub fadd fopp].
  assert (1 * (1 + - a) + a = 1)%Qc as Hden by ring.
  assert (1 <> 0)%Qc as H10 by (intros E; discriminate E).
  rewrite fdiv_Fin by (rewrite Hden; exact H10).
  rewrite Hden. f_equal. f_equal. field. exact H10.
Qed.

Lemma ewm_step_finite_is_finite a w c :
  exists w', ewm_step (Fin a) (Fin w, of_Z 1) (Fin c) = (Fin w', of_Z 1).
Proof. rewrite ewm_step_finite. eexists. reflexivity. Qed.

Lemma ewm_loop_finite a vals : forall w,
  all_finite vals -> all_finite (ewm_loop (Fin a) (Fin w, of_Z 1) vals).
Proof.
  induction vals as [|v vals IH]; intros w Hfin; cbn [ewm_loop]; [constructor|].
  inversion Hfin as [|? ? Hv Hrest]; subst.
  apply is_finite_Fin in Hv as [c ->].
  destruct (ewm_step_finite_is_finite a w c) as [w' ->]. cbn [fst].
  constructor; [reflexivity|]. apply IH, Hrest.
Qed.

(** The recurrence, entry by entry: [y] is the previous output and [x] the
    current input. *)
Lemma ewm_loop_recurrence a vals : forall w i x y,
  all_finite vals ->
  (Fin w :: ewm_loop (Fin a) (Fin w, of_Z 1) vals) !! i = Some y ->
  vals !! i = Some x ->
  ewm_loop (Fin a) (Fin w, of_Z 1) vals !! i
  = Some (Fin a * x + (of_Z 1 - Fin a) * y)%F.
Proof.
  induction vals as [|v vals IH]; intros w i x y Hfin Hy Hx; [discriminate|].
  inversion Hfin as [|? ? Hv Hrest]; subst.
  apply is_finite_Fin in Hv as [c ->].
  cbn [ewm_loop] in *. destruct (ewm_step_finite_is_finite a w c) as [w' Hstep].
  destruct i as [|i].
  - cbn [lookup list_lookup] in *. injection Hy as <-. injection Hx as <-.
    rewrite ewm_step_finite. reflexivity.
  - rewrite Hstep in *. cbn [fst lookup list_lookup] in *.
    apply IH; [exact Hrest | exact Hy | exact Hx].
Qed.

Lemma ewm_mean_finite span vals :
  is_finite (alpha_of_span span) = true ->
  all_finite vals -> all_finite (ewm_mean span vals).
Proof.
  intros Ha Hfin. apply is_finite_Fin in Ha as [a Ha].
  unfold ewm_mean. rewrite (prep_values_finite vals Hfin).
  destruct vals as [|v vals]; simpl; [constructor|].
  inversion Hfin as [|? ? Hv Hrest]; subst.
  constructor; [exact Hv|].
  apply is_finite_Fin in Hv as [w ->]. rewrite Ha.
  apply ewm_loop_finite, Hrest.
Qed.

Lemma ewm_mean_recurrence span vals i x y :
  is_finite (alpha_of_span span) = true ->
  all_finite vals ->
  ewm_mean span vals !! i = Some y ->
  vals !! (S i) = Some x ->
  ewm_mean span vals !! (S i)
  = Some (alpha_of_span span * x + (of_Z 1 - alpha_of_span span) * y)%F.
Proof.
  intros Ha Hfin Hy Hx. apply is_finite_Fin in Ha as [a Ha].
  unfold ewm_mean in *. rewrite (prep_values_finite vals Hfin) in *.
  destruct vals as [|v vals]; [discriminate|].
  inversion Hfin as [|? ? Hv Hrest]; subst.
  apply is_finite_Fin in Hv as [w ->].
  simpl in *. rewrite Ha in *.
  apply ewm_loop_recurrence; assumption.
Qed.

Lemma zip_with_finite (f : pyfloat -> pyfloat -> pyfloat) (s1 s2 : Series) :
  (forall x y, is_finite x = true -> is_finite y = true -> is_finite (f x y) = true) ->
  all_finite s1 -> all_finite s2 -> all_finite (zip_with f s1 s2).
Proof.
  intros Hf H1. revert s2. induction H1 as [|x s1 Hx _ IH]; intros s2 H2; simpl.
  - constructor.
  - destruct H2 as [|y s2 Hy H2]; constructor; [apply Hf; assumption|].
    apply IH, H2.
Qed.

Lemma fmap_finite (f : pyfloat -> pyfloat) (s : Series) :
  (forall x, is_finite x = true -> is_finite (f x) = true) ->
  all_finite s -> all_finite (f <$> s).
Proof.
  intros Hf Hs. induction Hs as [|x s Hx _ IH]; simpl; constructor;
    [apply Hf, Hx | exact IH].
Qed.

End Ewm.

(** ** The MACD family *)

Section Macd.

Implicit Types df : list bar.

Lemma alpha_12 : alpha_of_span 12 = of_Q (2 # 13).
Proof. by_evaluation. Qed.

Lemma alpha_26 : alpha_of_span 26 = of_Q (2 # 27).
Proof. by_evaluation. Qed.

Lemma alpha_9 : alpha_of_span 9 = of_Q (2 # 10).
Proof. by_evaluation. Qed.

Lemma dif_finite df : all_finite (col close df) -> all_finite (dif df).
Proof.
  intros Hfin. unfold dif, series_sub, short_ema, long_ema.
  apply zip_with_finite; [apply fsub_finite | |];
    apply ewm_mean_finite; (reflexivity || exact Hfin).
Qed.

Lemma dea_finite df : all_finite (col close df) -> all_finite (dea df).
Proof.
  intros Hfin. unfold dea.
  apply ewm_mean_finite; [reflexivity | apply dif_finite, Hfin].
Qed.

Lemma macd_bar_finite df : all_finite (col close df) -> all_finite (macd_bar df).
Proof.
  intros Hfin. unfold macd_bar, scalar_mul_series, series_sub.
  apply fmap_finite; [intros x Hx; apply fmul_finite; [reflexivity | exact Hx]|].
  apply zip_with_finite; [apply fsub_finite | apply dif_finite | apply dea_finite];
    exact Hfin.
Qed.

Lemma ewm_kernel_head alpha (vals : Series) :
  ewm_kernel alpha vals !! 0%nat = vals !! 0%nat.
Proof. destruct vals; reflexivity. Qed.

(** Each average starts at its first input, as the window reads it. *)
Lemma ema_head span df c :
  col close df !! 0%nat = Some c ->
  ewm_mean span (col close df) !! 0%nat = Some (inf_to_nan c).
Proof.
  intros Hc. unfold ewm_mean.
  rewrite ewm_kernel_head, prep_values_lookup, Hc. reflexivity.
Qed.

Lemma dif_head df c :
  col close df !! 0%nat = Some c ->
  dif df !! 0%nat = Some (inf_to_nan c - inf_to_nan c)%F.
Proof.
  intros Hc. unfold dif, series_sub, short_ema, long_ema.
  rewrite lookup_zip_with, !(ema_head _ _ _ Hc). reflexivity.
Qed.

(** [DIF[0]] is zero or missing, never infinite, so the signal line starts
    at it. *)
Lemma dea_head df : dea df !! 0%nat = dif df !! 0%nat.
Proof.
  unfold dea, ewm_mean. rewrite ewm_kernel_head, prep_values_lookup.
  destruct (col close df !! 0%nat) as [c|] eqn:Hc.
  - rewrite (dif_head df c Hc). cbn [fmap option_fmap option_map]. f_equal.
    destruct c; reflexivity.
  - apply lookup_ge_None in Hc. rewrite col_length in Hc.
    rewrite lookup_ge_None_2 by (rewrite dif_length; exact Hc). reflexivity.
Qed.

Lemma macd_bar_lookup df i x y :
  dif df !! i = Some x -> dea df !! i = Some y ->
  macd_bar df !! i = Some (of_Z 2 * (x - y))%F.
Proof.
  intros Hx Hy. unfold macd_bar, scalar_mul_series, series_sub.
  rewrite list_lookup_fmap, lookup_zip_with, Hx, Hy. reflexivity.
Qed.

Lemma of_Z_0 : of_Z 0 = Fin 0.
Proof. reflexivity. Qed.

End Macd.

Section MacdClaims.

Implicit Types df : list bar.

(** C3 (amended).  Each EMA starts at its first input as the window reads
    it: [EMA12[0] = EMA26[0] = close[0]], the missing value when
    [close[0]] is missing or infinite (pandas reads an infinity as
    missing), and [DEA[0] = DIF[0]].  When [close[0]] is a number,
    [DIF[0] = 0], [DEA[0] = 0] and [MACD[0] = 0].  When every close is a
    number, the EMAs follow [EMA[i] = a*x[i] + (1-a)*EMA[i-1]] with
    [a = 2/(span+1)]: spans 12 and 26 over [close], span 9 over [DIF]. *)
Theorem macd_seed df c :
  col close df !! 0%nat = Some c ->
  let out := compute_macd_kdj df in
  short_ema df !! 0%nat = Some (inf_to_nan c)
  /\ long_ema df !! 0%nat = Some (inf_to_nan c)
  /\ (is_inf c = false ->
      short_ema df !! 0%nat = Some c /\ long_ema df !! 0%nat = Some c)
  /\ DEA out !! 0%nat = DIF out !! 0%nat
  /\ (is_finite c = true ->
      DIF out !! 0%nat = Some (of_Z 0)
      /\ DEA out !! 0%nat = Some (of_Z 0)
      /\ MACD out !! 0%nat = Some (of_Z 0))
  /\ (all_finite (col close df) ->
      forall i x,
        col close df !! (S i) = Some x ->
        (forall y, short_ema df !! i = Some y ->
           short_ema df !! (S i)
           = Some (of_Q (2 # 13) * x + (of_Z 1 - of_Q (2 # 13)) * y)%F)
        /\ (forall y, long_ema df !! i = Some y ->
           long_ema df !! (S i)
           = Some (of_Q (2 # 27) * x + (of_Z 1 - of_Q (2 # 27)) * y)%F))
  /\ (all_finite (col close df) ->
      forall i x y,
        DIF out !! (S i) = Some x -> DEA out !! i = Some y ->
        DEA out !! (S i)
        = Some (of_Q (2 # 10) * x + (of_Z 1 - of_Q (2 # 10)) * y)%F).
Proof.
  intros Hc out. subst out. cbn [DIF DEA MACD compute_macd_kdj].
  pose proof (dif_head df c Hc) as Hdif.
  pose proof (ema_head 12 df c Hc) as Hs. pose proof (ema_head 26 df c Hc) as Hl.
  split; [exact Hs|]. split; [exact Hl|].
  split.
  { intros Hinf. unfold inf_to_nan in Hs, Hl. rewrite Hinf in Hs, Hl.
    split; assumption. }
  split; [apply dea_head|].
  split; [|split].
  - intros Hfin. apply is_finite_Fin in Hfin as [q ->].
    cbn [inf_to_nan is_inf] in Hdif. rewrite fsub_diag_Fin in Hdif.
    assert (dea df !! 0%nat = Some (Fin 0)) as Hdea by (rewrite dea_head; exact Hdif).
    rewrite of_Z_0. split; [exact Hdif|]. split; [exact Hdea|].
    rewrite (macd_bar_lookup df 0 _ _ Hdif Hdea), fsub_diag_Fin.
    f_equal; unfold of_Z, of_Q; cbn [fmul]; f_equal; ring.
  - intros Hfin i x Hx. split; intros y Hy.
    + rewrite <- alpha_12. apply ewm_mean_recurrence; (reflexivity || assumption).
    + rewrite <- alpha_26. apply ewm_mean_recurrence; (reflexivity || assumption).
  - intros Hfin i x y Hx Hy. rewrite <- alpha_9.
    apply ewm_mean_recurrence; try assumption; [reflexivity|].
    apply dif_finite, Hfin.
Qed.

(** C4.  The six output columns have the length of the input; when every
    close is defined (a number: the windows read an infinity as a missing
    value), so is every entry of DIF, DEA and MACD, from row 0 on. *)
Theorem macd_length_definedness df :
  let out := compute_macd_kdj df in
  (length (DIF out) = length df /\ length (DEA out) = length df
   /\ length (MACD out) = length df /\ length (K out) = length df
   /\ length (D out) = length df /\ length (J out) = length df)
  /\ (all_finite (col close df) ->
      all_finite (DIF out) /\ all_finite (DEA out) /\ all_finite (MACD out)).
Proof.
  intros out. subst out. cbn [DIF DEA MACD K D J compute_macd_kdj].
  split.
  - rewrite dif_length, dea_length, macd_bar_length, k_list_length,
      d_list_length, j_list_length. tauto.
  - intros Hfin. auto using dif_finite, dea_finite, macd_bar_finite.
Qed.

End MacdClaims.

(** ** Missing RSV values *)

Section MissingRsv.

Implicit Types df : list bar.

(** A missing RSV gives a missing K, D and J at that row. *)
Lemma kdj_missing df i :
  rsv df !! i = Some NaN ->
  K (compute_macd_kdj df) !! i = Some NaN
  /\ D (compute_macd_kdj df) !! i = Some NaN
  /\ J (compute_macd_kdj df) !! i = Some NaN.
Proof.
  intros Hr. destruct (kd_loop_nan (rsv df) i Hr) as [Hk Hd].
  split; [exact Hk|]. split; [exact Hd|].
  simpl in *. rewrite (j_list_lookup df i NaN NaN Hk Hd). reflexivity.
Qed.

(** Before the ninth row the rolling window has not filled. *)
Lemma rsv_warmup df i :
  (i < length df)%nat -> (S i < n)%nat -> rsv df !! i = Some NaN.
Proof.
  intros Hi Hn.
  destruct (lookup_lt_is_Some' (col close df) i) as [c Hc];
    [rewrite col_length; exact Hi|].
  destruct (lookup_lt_is_Some' (low_min df) i) as [lm Hl];
    [rewrite low_min_length; exact Hi|].
  destruct (lookup_lt_is_Some' (high_max df) i) as [hm Hh];
    [rewrite high_max_length; exact Hi|].
  rewrite (rsv_lookup df i c lm hm Hc Hl Hh).
  apply (rolling_warmup n _ _ i lm Hn) in Hl. subst lm.
  rewrite fsub_nan_r. reflexivity.
Qed.

(** C5 (amended).  On a series of fewer than nine rows every RSV, K, D and
    J entry is missing; DIF, DEA and MACD are numbers at every row when
    every close is a number. *)
Theorem kdj_short_series df :
  (length df < 9)%nat ->
  let out := compute_macd_kdj df in
  (forall i, (i < length df)%nat ->
     rsv df !! i = Some NaN /\ K out !! i = Some NaN
     /\ D out !! i = Some NaN /\ J out !! i = Some NaN)
  /\ (all_finite (col close df) ->
      length (DIF out) = length df /\ length (DEA out) = length df
      /\ length (MACD out) = length df
      /\ all_finite (DIF out) /\ all_finite (DEA out) /\ all_finite (MACD out)).
Proof.
  intros Hlen out. split.
  - intros i Hi.
    assert (rsv df !! i = Some NaN) as Hr by (apply rsv_warmup; unfold n; lia).
    split; [exact Hr|]. exact (kdj_missing df i Hr).
  - intros Hfin. subst out. cbn [DIF DEA MACD compute_macd_kdj].
    rewrite dif_length, dea_length, macd_bar_length.
    auto 10 using dif_finite, dea_finite, macd_bar_finite.
Qed.

End MissingRsv.

(** ** The MACD family on sample frames *)

Lemma scenario_closes_finite : all_finite (col close scenario).
Proof. repeat constructor. Qed.

Lemma macd_seed_witness :
  col close scenario !! 0%nat = Some (of_Z 100)
  /\ DIF (compute_macd_kdj scenario) !! 0%nat = Some (of_Z 0)
  /\ DEA (compute_macd_kdj scenario) !! 0%nat = Some (of_Z 0)
  /\ MACD (compute_macd_kdj scenario) !! 0%nat = Some (of_Z 0)
  /\ short_ema scenario !! 1%nat
     = Some (of_Q (2 # 13) * of_Z 102 + (of_Z 1 - of_Q (2 # 13)) * of_Z 100)%F.
Proof.
  destruct (macd_seed scenario (of_Z 100) eq_refl)
    as (Hs & _ & _ & _ & Hzero & Hrec & _).
  destruct (Hzero eq_refl) as (H1 & H2 & H3).
  refine (conj eq_refl (conj H1 (conj H2 (conj H3 _)))).
  exact (proj1 (Hrec scenario_closes_finite 0%nat (of_Z 102) eq_refl) _ Hs).
Defined.

(** With a missing first close, [DIF[0]] is missing, not zero. *)
Lemma macd_seed_counterexample :
  length missing_close = 1%nat
  /\ DIF (compute_macd_kdj missing_close) !! 0%nat = Some NaN
  /\ MACD (compute_macd_kdj missing_close) !! 0%nat = Some NaN
  /\ DIF (compute_macd_kdj missing_close) !! 0%nat <> Some (of_Z 0)
  /\ MACD (compute_macd_kdj missing_close) !! 0%nat <> Some (of_Z 0).
Proof. repeat split; try reflexivity; discriminate. Qed.

Lemma macd_length_definedness_witness :
  all_finite (col close scenario)
  /\ length (DIF (compute_macd_kdj scenario)) = 10%nat
  /\ length (J (compute_macd_kdj scenario)) = 10%nat
  /\ all_finite (DIF (compute_macd_kdj scenario))
  /\ all_finite (DEA (compute_macd_kdj scenario))
  /\ all_finite (MACD (compute_macd_kdj scenario)).
Proof.
  destruct (macd_length_definedness scenario)
    as ((L1 & _ & _ & _ & _ & L6) & Hfin).
  destruct (Hfin scenario_closes_finite) as (F1 & F2 & F3).
  exact (conj scenario_closes_finite (conj L1 (conj L6 (conj F1 (conj F2 F3))))).
Defined.

(** An infinite close is read as a missing one: the averages carry the
    last value on, and DIF stays a number. *)
Example infinite_close_read_as_missing :
  short_ema infinite_close !! 1%nat = Some (of_Z 10)
  /\ long_ema infinite_close !! 1%nat = Some (of_Z 10)
  /\ DIF (compute_macd_kdj infinite_close) !! 1%nat = Some (of_Z 0).
Proof. repeat split; by_evaluation. Qed.

Lemma kdj_short_series_witness :
  (length short_frame < 9)%nat
  /\ rsv short_frame !! 7%nat = Some NaN
  /\ K (compute_macd_kdj short_frame) !! 7%nat = Some NaN
  /\ D (compute_macd_kdj short_frame) !! 7%nat = Some NaN
  /\ J (compute_macd_kdj short_frame) !! 7%nat = Some NaN
  /\ all_finite (MACD (compute_macd_kdj short_frame)).
Proof.
  assert (length short_frame < 9)%nat as Hlen by (vm_compute; lia).
  assert (all_finite (col close short_frame)) as Hfin by repeat constructor.
  destruct (kdj_short_series short_frame Hlen) as (Hkdj & Hmacd).
  destruct (Hkdj 7%nat) as (R & HK & HD & HJ); [vm_compute; lia|].
  destruct (Hmacd Hfin) as (_ & _ & _ & _ & _ & F3).
  exact (conj Hlen (conj R (conj HK (conj HD (conj HJ F3))))).
Defined.

(** A short series whose first close is missing: the KDJ part holds, the
    MACD family is missing at row 0. *)
Lemma kdj_short_series_counterexample :
  (length missing_first_close < 9)%nat
  /\ DIF (compute_macd_kdj missing_first_close) !! 0%nat = Some NaN
  /\ DEA (compute_macd_kdj missing_first_close) !! 0%nat = Some NaN
  /\ MACD (compute_macd_kdj missing_first_close) !! 0%nat = Some NaN.
Proof.
  split; [vm_compute; lia|]. repeat split; reflexivity.
Qed.

(** ** Ordering of doubles, rolling extrema *)

Section Order.

Implicit Types x y z : pyfloat.

Lemma fle_Fin a b : (Fin a <=? Fin b)%F = true <-> (a <= b)%Qc.
Proof.
  unfold fle. simpl. rewrite Qcle_alt.
  destruct (a ?= b)%Qc; simpl; intuition congruence.
Qed.

Lemma feq_refl x : x <> NaN -> (x =? x)%F = true.
Proof.
  destruct x as [a| | |]; try reflexivity; [|congruence].
  intros _. simpl. replace (a ?= a)%Qc with Eq; [reflexivity|].
  symmetry. apply Qceq_alt. reflexivity.
Qed.

Lemma fle_refl x : x <> NaN -> (x <=? x)%F = true.
Proof.
  destruct x as [a| | |]; try reflexivity; [|congruence].
  intros _. apply fle_Fin, Qcle_refl.
Qed.

Lemma fle_trans x y z :
  (x <=? y)%F = true -> (y <=? z)%F = true -> (x <=? z)%F = true.
Proof.
  destruct x as [a| | |], y as [b| | |], z as [c| | |];
    try reflexivity; try discriminate.
  rewrite !fle_Fin. apply Qcle_trans.
Qed.

Lemma fle_antisym x y :
  (x <=? y)%F = true -> (y <=? x)%F = true -> (x =? y)%F = true.
Proof.
  destruct x as [a| | |], y as [b| | |]; try reflexivity; try discriminate.
  rewrite !fle_Fin. intros H1 H2.
  rewrite (Qcle_antisym _ _ H1 H2). apply feq_refl. discriminate.
Qed.

Lemma flt_fle x y : (x <? y)%F = true -> (x <=? y)%F = true.
Proof. unfold fle. intros ->. reflexivity. Qed.

(** On defined values the order is total. *)
Lemma fle_total x y :
  x <> NaN -> y <> NaN -> (x <? y)%F = false -> (y <=? x)%F = true.
Proof.
  intros Hx Hy H.
  destruct x as [a| | |], y as [b| | |];
    try congruence; try reflexivity; try discriminate.
  simpl in H. apply fle_Fin, Qcle_alt.
  unfold Qccompare in *. rewrite <- (Qcompare_antisym a b).
  destruct (a ?= b)%Q; simpl; congruence.
Qed.

Lemma fmin_cases x y : fmin x y = x \/ fmin x y = y.
Proof. unfold fmin. destruct (y <? x)%F; auto. Qed.

Lemma fmax_cases x y : fmax x y = x \/ fmax x y = y.
Proof. unfold fmax. destruct (x <? y)%F; auto. Qed.

Lemma fmin_le x y :
  x <> NaN -> y <> NaN ->
  (fmin x y <=? x)%F = true /\ (fmin x y <=? y)%F = true.
Proof.
  intros Hx Hy. unfold fmin. destruct (y <? x)%F eqn:E.
  - split; [apply flt_fle, E | apply fle_refl, Hy].
  - split; [apply fle_refl, Hx | apply fle_total; assumption].
Qed.

Lemma fmax_ge x y :
  x <> NaN -> y <> NaN ->
  (x <=? fmax x y)%F = true /\ (y <=? fmax x y)%F = true.
Proof.
  intros Hx Hy. unfold fmax. destruct (x <? y)%F eqn:E.
  - split; [apply flt_fle, E | apply fle_refl, Hy].
  - split; [apply fle_refl, Hx | apply fle_total; assumption].
Qed.

Lemma foldr_fmin_not_nan (w : Series) :
  existsb isnan w = false -> foldr fmin PInf w <> NaN.
Proof.
  induction w as [|a w IH]; simpl; [discriminate|].
  intros H. apply orb_false_iff in H as [Ha Hw].
  destruct (fmin_cases a (foldr fmin PInf w)) as [-> | ->];
    [apply isnan_false, Ha | apply IH, Hw].
Qed.

Lemma foldr_fmax_not_nan (w : Series) :
  existsb isnan w = false -> foldr fmax NInf w <> NaN.
Proof.
  induction w as [|a w IH]; simpl; [discriminate|].
  intros H. apply orb_false_iff in H as [Ha Hw].
  destruct (fmax_cases a (foldr fmax NInf w)) as [-> | ->];
    [apply isnan_false, Ha | apply IH, Hw].
Qed.

(** The rolling minimum is below every value of its window, the rolling
    maximum above. *)
Lemma foldr_fmin_le (w : Series) x :
  existsb isnan w = false -> x ∈ w -> (foldr fmin PInf w <=? x)%F = true.
Proof.
  induction w as [|a w IH]; intros Hw Hx; [inversion Hx|].
  simpl in *. apply orb_false_iff in Hw as [Ha Hw].
  apply isnan_false in Ha.
  destruct (fmin_le a (foldr fmin PInf w) Ha (foldr_fmin_not_nan w Hw)) as [L1 L2].
  apply elem_of_cons in Hx as [-> | Hx]; [exact L1|].
  eapply fle_trans; [exact L2 | apply IH; assumption].
Qed.

Lemma foldr_fmax_ge (w : Series) x :
  existsb isnan w = false -> x ∈ w -> (x <=? foldr fmax NInf w)%F = true.
Proof.
  induction w as [|a w IH]; intros Hw Hx; [inversion Hx|].
  simpl in *. apply orb_false_iff in Hw as [Ha Hw].
  apply isnan_false in Ha.
  destruct (fmax_ge a (foldr fmax NInf w) Ha (foldr_fmax_not_nan w Hw)) as [L1 L2].
  apply elem_of_cons in Hx as [-> | Hx]; [exact L1|].
  eapply fle_trans; [apply IH; assumption | exact L2].
Qed.

(** Row [i] is the last row of its own window. *)
Lemma window_contains_row k (s : Series) i x :
  (0 < k)%nat -> s !! i = Some x -> x ∈ window k s i.
Proof.
  intros Hk Hx. unfold window.
  apply list_elem_of_lookup. exists (i - (S i - k))%nat.
  rewrite lookup_take_lt by lia. rewrite lookup_drop.
  replace (S i - k + (i - (S i - k)))%nat with i by lia. exact Hx.
Qed.

(** A defined rolling value is the aggregate of a full window without
    missing values, as the window reads them. *)
Lemma rolling_defined k agg (s : Series) i v :
  rolling k agg s !! i = Some v -> v <> NaN ->
  existsb isnan (window k (prep_values s) i) = false
  /\ v = agg (window k (prep_values s) i).
Proof.
  rewrite rolling_lookup. destruct (s !! i); simpl; [|discriminate].
  destruct (decide (S i < k)%nat); [congruence|].
  destruct (existsb isnan (window k (prep_values s) i)); [congruence|].
  intros [= <-] _. auto.
Qed.

Lemma existsb_isnan_elem (w : Series) x :
  existsb isnan w = false -> x ∈ w -> x <> NaN.
Proof.
  intros Hw Hin ->. apply list_elem_of_In in Hin.
  assert (existsb isnan w = true) as H
    by (apply existsb_exists; exists NaN; split; [exact Hin | reflexivity]).
  congruence.
Qed.

(** A window without missing values holds its last row as it is. *)
Lemma window_contains_prepared k (s : Series) i x :
  (0 < k)%nat -> s !! i = Some x ->
  existsb isnan (window k (prep_values s) i) = false ->
  x ∈ window k (prep_values s) i.
Proof.
  intros Hk Hx Hw.
  assert (inf_to_nan x ∈ window k (prep_values s) i) as Hin
    by (apply window_contains_row; [exact Hk|];
        rewrite prep_values_lookup, Hx; reflexivity).
  rewrite <- (inf_to_nan_defined x (existsb_isnan_elem _ _ Hw Hin)).
  exact Hin.
Qed.

End Order.

Section FlatPrice.

Implicit Types df : list bar.

(** In a flat window, a close within its row's [low .. high] range is the
    flat price itself. *)
Lemma close_at_flat_price df i b lm hm :
  df !! i = Some b ->
  low_min df !! i = Some lm ->
  high_max df !! i = Some hm ->
  (hm =? lm)%F = true ->
  (low b <=? close b)%F = true ->
  (close b <=? high b)%F = true ->
  (close b =? lm)%F = true.
Proof.
  intros Hb Hl Hh Hflat Hlc Hch.
  apply feq_true in Hflat as [-> Hlm].
  destruct (rolling_defined n _ _ i lm Hl Hlm) as [Hwl El].
  destruct (rolling_defined n _ _ i lm Hh Hlm) as [Hwh Eh].
  assert (low b ∈ window n (prep_values (col low df)) i) as Hin_l.
  { apply window_contains_prepared; [unfold n; lia | | exact Hwl].
    unfold col. rewrite list_lookup_fmap, Hb. reflexivity. }
  assert (high b ∈ window n (prep_values (col high df)) i) as Hin_h.
  { apply window_contains_prepared; [unfold n; lia | | exact Hwh].
    unfold col. rewrite list_lookup_fmap, Hb. reflexivity. }
  pose proof (foldr_fmin_le _ _ Hwl Hin_l) as H1. rewrite <- El in H1.
  pose proof (foldr_fmax_ge _ _ Hwh Hin_h) as H2. rewrite <- Eh in H2.
  apply fle_antisym.
  - eapply fle_trans; eassumption.
  - eapply fle_trans; eassumption.
Qed.

End FlatPrice.

(** ** Flat windows *)

Section FlatWindow.

Implicit Types df : list bar.

(** C1 (amended).  At a row [i >= 8] whose trailing window is flat
    ([high_max == low_min]) and whose close equals that one price, RSV is
    the missing value ([0/0]), and so are K, D and J; the engine is a total
    function, so nothing is raised.  (A close within its row's
    [low .. high] range is such a close: see [close_at_flat_price].) *)
Theorem flat_window_rsv_missing df i c lm hm :
  (8 <= i)%nat ->
  col close df !! i = Some c ->
  low_min df !! i = Some lm ->
  high_max df !! i = Some hm ->
  (hm =? lm)%F = true ->
  (c =? lm)%F = true ->
  let out := compute_macd_kdj df in
  rsv df !! i = Some NaN
  /\ K out !! i = Some NaN /\ D out !! i = Some NaN /\ J out !! i = Some NaN.
Proof.
  intros _ Hc Hl Hh Hflat Hclose out.
  apply feq_true in Hflat as [-> _]. apply feq_true in Hclose as [-> _].
  assert (rsv df !! i = Some NaN) as Hr.
  { rewrite (rsv_lookup df i lm lm lm Hc Hl Hh).
    destruct (fsub_diag lm) as [-> | ->]; reflexivity. }
  split; [exact Hr | exact (kdj_missing df i Hr)].
Qed.

End FlatWindow.

Lemma flat_window_rsv_missing_witness :
  col close flat_frame !! 8%nat = Some (of_Z 10)
  /\ low_min flat_frame !! 8%nat = Some (of_Z 10)
  /\ high_max flat_frame !! 8%nat = Some (of_Z 10)
  /\ rsv flat_frame !! 8%nat = Some NaN
  /\ K (compute_macd_kdj flat_frame) !! 8%nat = Some NaN
  /\ D (compute_macd_kdj flat_frame) !! 8%nat = Some NaN
  /\ J (compute_macd_kdj flat_frame) !! 8%nat = Some NaN.
Proof.
  assert (low_min flat_frame !! 8%nat = Some (of_Z 10)) as Hl by by_evaluation.
  assert (high_max flat_frame !! 8%nat = Some (of_Z 10)) as Hh by by_evaluation.
  refine (conj eq_refl (conj Hl (conj Hh _))).
  apply (flat_window_rsv_missing flat_frame 8 (of_Z 10) (of_Z 10) (of_Z 10));
    [lia | reflexivity | exact Hl | exact Hh | reflexivity | reflexivity].
Defined.

(** A flat window at row 8 ([high_max = low_min = 10]) with a close of 11:
    RSV is [1/0 * 100 = +inf], which [np.isnan] does not flag, so K and D
    are computed from it and are [+inf], not missing. *)
Lemma flat_window_rsv_counterexample :
  low_min flat_close_above !! 8%nat = Some (of_Z 10)
  /\ high_max flat_close_above !! 8%nat = Some (of_Z 10)
  /\ rsv flat_close_above !! 8%nat = Some PInf
  /\ K (compute_macd_kdj flat_close_above) !! 8%nat = Some PInf
  /\ D (compute_macd_kdj flat_close_above) !! 8%nat = Some PInf.
Proof.
  split; [by_evaluation|]. split; [by_evaluation|].
  repeat split; reflexivity.
Qed.

(** ** Well-formed market data never gives an infinite RSV *)

Section WellFormed.

Implicit Types df : list bar.

Lemma foldr_fmin_finite (w : Series) :
  w <> [] -> all_finite w -> is_finite (foldr fmin PInf w) = true.
Proof.
  induction w as [|a w IH]; intros Hne Hfin; [congruence|].
  inversion Hfin as [|? ? Ha Hw]; subst. simpl.
  destruct w as [|b w].
  - simpl. unfold fmin. apply is_finite_Fin in Ha as [q ->]. reflexivity.
  - destruct (fmin_cases a (foldr fmin PInf (b :: w))) as [-> | ->];
      [exact Ha | apply IH; [discriminate | exact Hw]].
Qed.

Lemma foldr_fmax_finite (w : Series) :
  w <> [] -> all_finite w -> is_finite (foldr fmax NInf w) = true.
Proof.
  induction w as [|a w IH]; intros Hne Hfin; [congruence|].
  inversion Hfin as [|? ? Ha Hw]; subst. simpl.
  destruct w as [|b w].
  - simpl. unfold fmax. apply is_finite_Fin in Ha as [q ->]. reflexivity.
  - destruct (fmax_cases a (foldr fmax NInf (b :: w))) as [-> | ->];
      [exact Ha | apply IH; [discriminate | exact Hw]].
Qed.

Lemma window_finite k (s : Series) i : all_finite s -> all_finite (window k s i).
Proof.
  intros Hs. unfold window, all_finite. apply Forall_take, Forall_drop, Hs.
Qed.




End WellFormed.

(** ** Which entries are defined *)

Section Definedness.

Implicit Types rs : Series.
Implicit Types df : list bar.

Lemma not_nan_not_inf_finite x :
  isnan x = false -> is_inf x = false -> is_finite x = true.
Proof. destruct x; simpl; congruence. Qed.

Lemma smooth_k_finite k_prev r :
  is_finite k_prev = true -> is_finite r = true ->
  is_finite (smooth_k k_prev r) = true.
Proof.
  intros Hk Hr. unfold smooth_k.
  apply fadd_finite; apply fmul_finite; (reflexivity || assumption).
Qed.

Lemma smooth_d_finite d_prev k_now :
  is_finite d_prev = true -> is_finite k_now = true ->
  is_finite (smooth_d d_prev k_now) = true.
Proof. apply smooth_k_finite. Qed.


(** At a defined RSV the loop smooths from 50/50 or from the previous row,
    whose K is then defined. *)
Lemma kd_loop_defined rs i r :
  rs !! i = Some r -> isnan r = false ->
  exists k_prev d_prev,
    (kd_loop 0 rs ([], [])).1 !! i = Some (smooth_k k_prev r)
    /\ (kd_loop 0 rs ([], [])).2 !! i = Some (smooth_d d_prev (smooth_k k_prev r))
    /\ ((k_prev = of_Z 50 /\ d_prev = of_Z 50)
        \/ exists j, i = S j
                     /\ (kd_loop 0 rs ([], [])).1 !! j = Some k_prev
                     /\ isnan k_prev = false
                     /\ (kd_loop 0 rs ([], [])).2 !! j = Some d_prev).
Proof.
  intros Hr Hnan. destruct i as [|j].
  - exists (of_Z 50), (of_Z 50).
    destruct (kd_loop_first rs r Hr Hnan) as [Hk Hd]. auto.
  - pose proof (lookup_lt_Some _ _ _ Hr) as Hlen.
    destruct (kd_loop_length rs) as [Lk Ld].
    destruct (lookup_lt_is_Some' (kd_loop 0 rs ([], [])).1 j) as [kp Hkp]; [lia|].
    destruct (lookup_lt_is_Some' (kd_loop 0 rs ([], [])).2 j) as [dp Hdp]; [lia|].
    destruct (isnan kp) eqn:Ekp.
    + apply isnan_true in Ekp. subst kp.
      exists (of_Z 50), (of_Z 50).
      destruct (kd_loop_reseed rs j r Hr Hnan Hkp) as [Hk Hd]. auto.
    + exists kp, dp.
      destruct (kd_loop_continue rs j r kp dp Hr Hnan Hkp Ekp Hdp) as [Hk Hd].
      split; [exact Hk|]. split; [exact Hd|]. right. exists j. auto.
Qed.


(** Without infinite RSV values, K and D are numbers exactly where RSV is
    defined, and missing elsewhere. *)
Lemma kd_loop_finite rs :
  (forall i r, rs !! i = Some r -> is_inf r = false) ->
  forall i r k d,
    rs !! i = Some r ->
    (kd_loop 0 rs ([], [])).1 !! i = Some k ->
    (kd_loop 0 rs ([], [])).2 !! i = Some d ->
    (isnan r = true -> k = NaN /\ d = NaN)
    /\ (isnan r = false -> is_finite k = true /\ is_finite d = true).
Proof.
  intros Hinf. induction i as [|j IH]; intros r k d Hr Hk Hd.
  - split.
    + intros Er. apply isnan_true in Er. subst r.
      destruct (kd_loop_nan rs 0 Hr) as [Hk' Hd']. split; congruence.
    + intros Er. destruct (kd_loop_first rs r Hr Er) as [Hk' Hd'].
      assert (is_finite r = true) as Fr
        by (apply not_nan_not_inf_finite; [exact Er | exact (Hinf _ _ Hr)]).
      rewrite Hk' in Hk. rewrite Hd' in Hd.
      injection Hk as <-. injection Hd as <-.
      split; [|apply smooth_d_finite; [reflexivity|]];
        apply smooth_k_finite; (reflexivity || exact Fr).
  - split.
    + intros Er. apply isnan_true in Er. subst r.
      destruct (kd_loop_nan rs (S j) Hr) as [Hk' Hd']. split; congruence.
    + intros Er.
      assert (is_finite r = true) as Fr
        by (apply not_nan_not_inf_finite; [exact Er | exact (Hinf _ _ Hr)]).
      destruct (kd_loop_defined rs (S j) r Hr Er)
        as (kp & dp & Hk' & Hd' & [[-> ->] | (j' & Ej & Hkp & Ekp & Hdp)]);
        rewrite Hk' in Hk; rewrite Hd' in Hd;
        injection Hk as <-; injection Hd as <-.
      * split; [|apply smooth_d_finite; [reflexivity|]];
          apply smooth_k_finite; (reflexivity || exact Fr).
      * injection Ej as <-.
        pose proof (lookup_lt_Some _ _ _ Hr) as Hlen.
        destruct (lookup_lt_is_Some' rs j) as [rj Hrj]; [lia|].
        destruct (IH rj kp dp Hrj Hkp Hdp) as [Hmiss Hfin].
        destruct (isnan rj) eqn:Erj.
        { destruct (Hmiss eq_refl) as [-> _]. discriminate. }
        destruct (Hfin eq_refl) as [Fk Fd].
        split; [|apply smooth_d_finite; [exact Fd|]];
          apply smooth_k_finite; assumption.
Qed.


End Definedness.




(** ** Signal derivation *)

Section SignalFacts.

Implicit Types row : indicator_row.

(** A value below 20 is not above 80. *)
Lemma zone_exclusive x : (x <? of_Z 20)%F = true -> (x >? of_Z 80)%F = false.
Proof.
  unfold fgt. destruct x as [q| | |]; try reflexivity; try discriminate.
  unfold of_Z, of_Q. simpl.
  destruct (q ?= Q2Qc (inject_Z 20))%Qc eqn:E; try discriminate. intros _.
  destruct (Q2Qc (inject_Z 80) ?= q)%Qc eqn:E'; try reflexivity.
  apply Qclt_alt in E, E'. exfalso.
  assert (Q2Qc (inject_Z 80) < Q2Qc (inject_Z 20))%Qc as H
    by (eapply Qclt_trans; eassumption).
  apply Qclt_alt in H. discriminate H.
Qed.

(** The code's two [if]/[elif] pairs emit a signal exactly when its own
    condition holds. *)
Lemma signals_spec row s : s ∈ signals row <-> spec_condition s row = true.
Proof.
  unfold signals, spec_condition, fgt.
  pose proof (flt_asym (row_DEA row) (row_DIF row)) as A1.
  pose proof (zone_exclusive (row_J row)) as A2. unfold fgt in A2.
  destruct (row_DEA row <? row_DIF row)%F, (of_Z 0 <? row_MACD row)%F,
    (row_DIF row <? row_DEA row)%F, (row_MACD row <? of_Z 0)%F,
    (row_J row <? of_Z 20)%F, (of_Z 80 <? row_J row)%F;
    simpl in *;
    try (specialize (A1 eq_refl)); try (specialize (A2 eq_refl));
    try discriminate;
    destruct s; rewrite ?elem_of_cons, ?elem_of_nil; intuition congruence.
Qed.

Lemma signals_nil row :
  signals row = [] <-> forall s, spec_condition s row = false.
Proof.
  split.
  - intros Hnil s. destruct (spec_condition s row) eqn:E; [|reflexivity].
    apply signals_spec in E. rewrite Hnil in E. inversion E.
  - intros Hnone. destruct (signals row) as [|s l] eqn:E; [reflexivity|].
    assert (s ∈ signals row) as Hin by (rewrite E; left).
    apply signals_spec in Hin. rewrite Hnone in Hin. discriminate.
Qed.

Lemma report_no_clear_signal row :
  report row = Info no_clear_signal <-> signals row = [].
Proof.
  unfold report, signal_banner. destruct (signals row); split; congruence.
Qed.

End SignalFacts.

Section SignalClaims.

Implicit Types row : indicator_row.

Lemma momentum_exclusive row :
  ~ (BullishMomentum ∈ signals row /\ BearishMomentum ∈ signals row).
Proof.
  rewrite !signals_spec. cbn [spec_condition]. unfold fgt.
  intros [H1 H2]. apply andb_true_iff in H1 as [H1 _].
  apply andb_true_iff in H2 as [H2 _].
  apply flt_asym in H1. congruence.
Qed.

Lemma zone_signals_exclusive row :
  ~ (Oversold ∈ signals row /\ Overbought ∈ signals row).
Proof.
  rewrite !signals_spec. cbn [spec_condition]. intros [H1 H2].
  apply zone_exclusive in H1. congruence.
Qed.

(** Each of the nine combinations of a momentum outcome and a zone outcome
    is the signal list of some last row. *)
Lemma signal_outcomes_realised m z :
  m ∈ momentum_outcomes -> z ∈ zone_outcomes ->
  exists row, signals row = m ++ z.
Proof.
  unfold momentum_outcomes, zone_outcomes.
  rewrite !elem_of_cons, !elem_of_nil.
  intros [-> | [-> | [-> | []]]] [-> | [-> | [-> | []]]].
  - exists (row_of (of_Z 0) (of_Z 0) (of_Z 0) (of_Z 50)). reflexivity.
  - exists (row_of (of_Z 0) (of_Z 0) (of_Z 0) (of_Z 15)). reflexivity.
  - exists (row_of (of_Z 0) (of_Z 0) (of_Z 0) (of_Z 85)). reflexivity.
  - exists (row_of (of_Z 2) (of_Z 1) (of_Z 2) (of_Z 50)). reflexivity.
  - exists (row_of (of_Z 2) (of_Z 1) (of_Z 2) (of_Z 15)). reflexivity.
  - exists (row_of (of_Z 2) (of_Z 1) (of_Z 2) (of_Z 85)). reflexivity.
  - exists (row_of (of_Z 1) (of_Z 2) (of_Z (-2)) (of_Z 50)). reflexivity.
  - exists (row_of (of_Z 1) (of_Z 2) (of_Z (-2)) (of_Z 15)). reflexivity.
  - exists (row_of (of_Z 1) (of_Z 2) (of_Z (-2)) (of_Z 85)). reflexivity.
Qed.

(** C7 (amended).  On every last row each signal is emitted exactly when
    its condition holds: bullish momentum when [DIF > DEA] and [MACD > 0],
    bearish momentum when [DIF < DEA] and [MACD < 0], oversold when
    [J < 20], overbought when [J > 80]; the page reports "no clear signal"
    exactly when none is emitted, that is when no condition holds, and
    otherwise shows the emitted signals.  The two momentum signals never occur
    together, nor do the two zone signals; every combination of at most
    one momentum signal with at most one zone signal occurs on some row. *)
Theorem signal_derivation row :
  (BullishMomentum ∈ signals row
   <-> (row_DIF row >? row_DEA row)%F = true /\ (row_MACD row >? of_Z 0)%F = true)
  /\ (BearishMomentum ∈ signals row
      <-> (row_DIF row <? row_DEA row)%F = true /\ (row_MACD row <? of_Z 0)%F = true)
  /\ (Oversold ∈ signals row <-> (row_J row <? of_Z 20)%F = true)
  /\ (Overbought ∈ signals row <-> (row_J row >? of_Z 80)%F = true)
  /\ (report row = Info no_clear_signal <-> signals row = [])
  /\ (report row = Info no_clear_signal
      <-> forall s, spec_condition s row = false)
  /\ (signals row <> [] ->
      report row = Success (join "，" (signal_text <$> signals row)))
  /\ ~ (BullishMomentum ∈ signals row /\ BearishMomentum ∈ signals row)
  /\ ~ (Oversold ∈ signals row /\ Overbought ∈ signals row)
  /\ (forall m z, m ∈ momentum_outcomes -> z ∈ zone_outcomes ->
        exists row', signals row' = m ++ z).
Proof.
  split; [rewrite signals_spec; apply andb_true_iff|].
  split; [rewrite signals_spec; apply andb_true_iff|].
  split; [apply signals_spec|].
  split; [apply signals_spec|].
  split; [apply report_no_clear_signal|].
  split; [rewrite report_no_clear_signal; apply signals_nil|].
  split; [unfold report; destruct (signals row); [congruence | reflexivity]|].
  split; [apply momentum_exclusive|].
  split; [apply zone_signals_exclusive|].
  apply signal_outcomes_realised.
Qed.

(** C10.  A missing J emits neither zone signal; a missing DIF, DEA or MACD
    emits neither momentum signal; when all four are missing the page
    reports "no clear signal". *)
Theorem missing_values_fire_no_signal row :
  (row_J row = NaN ->
   (Oversold ∉ signals row) /\ (Overbought ∉ signals row))
  /\ (row_DIF row = NaN \/ row_DEA row = NaN \/ row_MACD row = NaN ->
      (BullishMomentum ∉ signals row) /\ (BearishMomentum ∉ signals row))
  /\ (row_DIF row = NaN -> row_DEA row = NaN -> row_MACD row = NaN ->
      row_J row = NaN ->
      signals row = [] /\ report row = Info no_clear_signal).
Proof.
  split; [|split].
  - intros HJ. rewrite !signals_spec. cbn [spec_condition]. unfold fgt.
    rewrite HJ, flt_nan_l, flt_nan_r. split; discriminate.
  - intros H. rewrite !signals_spec. cbn [spec_condition]. unfold fgt.
    destruct H as [H | [H | H]]; rewrite H;
      rewrite ?flt_nan_l, ?flt_nan_r, ?andb_false_r; cbn [andb];
      split; discriminate.
  - intros H1 H2 H3 H4.
    assert (signals row = []) as Hnil.
    { apply signals_nil. intros s. destruct s; cbn [spec_condition]; unfold fgt;
        rewrite ?H1, ?H2, ?H3, ?H4, ?flt_nan_l, ?flt_nan_r; reflexivity. }
    split; [exact Hnil | apply report_no_clear_signal, Hnil].
Qed.

End SignalClaims.

(** The specification's scenario: [DIF = 1.2], [DEA = 0.8], [MACD = 0.5],
    [J = 15] gives bullish momentum and oversold. *)
Example signal_scenario :
  signals (row_of (of_Q (12 # 10)) (of_Q (8 # 10)) (of_Q (5 # 10)) (of_Z 15))
  = [BullishMomentum; Oversold].
Proof. reflexivity. Qed.

(** No last row emits exactly the subset bullish + bearish (nor any other
    subset holding both momentum signals). *)
Lemma signal_derivation_counterexample :
  exists S : list signal,
    S ⊆ [BullishMomentum; BearishMomentum; Oversold; Overbought]
    /\ forall row, ~ (forall s, s ∈ signals row <-> s ∈ S).
Proof.
  exists [BullishMomentum; BearishMomentum]. split.
  - intros s. rewrite !elem_of_cons. tauto.
  - intros row H. apply (momentum_exclusive row). split; apply H.
    + left.
    + right. left.
Qed.

(** ** The synthetic fall-back *)

Section FallbackFacts.

Lemma make_frame_cols (dates1 dates2 : list Z) (highs lows closes : Series) :
  length dates1 = length dates2 ->
  col high (make_frame dates1 highs lows closes)
  = col high (make_frame dates2 highs lows closes)
  /\ col low (make_frame dates1 highs lows closes)
     = col low (make_frame dates2 highs lows closes)
  /\ col close (make_frame dates1 highs lows closes)
     = col close (make_frame dates2 highs lows closes).
Proof.
  unfold make_frame, col. generalize (zip (zip highs lows) closes) as xs.
  revert dates2. induction dates1 as [|d1 dates1 IH]; intros [|d2 dates2] xs Hlen;
    try discriminate; [auto|].
  destruct xs as [|x xs]; [auto|].
  injection Hlen as Hlen. destruct (IH dates2 xs Hlen) as (E1 & E2 & E3).
  cbn. repeat split; f_equal; assumption.
Qed.

Lemma date_range_length today days : length (date_range today days) = days.
Proof. unfold date_range. rewrite length_fmap. apply length_seq. Qed.

End FallbackFacts.

(** Within one interpreter process (one [hash_seed]), two fall-back runs
    on the same ticker and number of days return the same high, low and
    close columns, whatever the state of numpy's global generator and the
    clock at either run; the frames are the same when the clock is; and
    the four metrics are the same.  (Across processes the hash seed
    differs, and the seeds drawn from it with it.) *)
Lemma fallback_reproducible_in_process
    (py_hash : Z -> string -> Z) (hash_seed : Z)
    (Gen : Type) (np_random_seed : Z -> Gen)
    (np_random_randn np_random_rand : nat -> Rand Gen Series)
    (Generator : Type) (default_rng : Z -> Generator)
    (uniform : pyfloat -> pyfloat -> Rand Generator pyfloat)
    (np_round2 : pyfloat -> pyfloat)
    (ak1 ak2 : option akshare) (today1 today2 : Z) (g1 g2 : Gen)
    (stock_code : string) (days : nat) :
  price_fetch_failed ak1 stock_code days ->
  price_fetch_failed ak2 stock_code days ->
  metrics_fetch_failed ak1 stock_code ->
  metrics_fetch_failed ak2 stock_code ->
  let fetch ak today g :=
    (fetch_price_data py_hash hash_seed Gen np_random_seed np_random_randn
       np_random_rand ak today stock_code days g).1 in
  let metrics_of ak :=
    fetch_financial_metrics py_hash hash_seed Generator default_rng uniform
      np_round2 ak stock_code in
  col high (fetch ak1 today1 g1) = col high (fetch ak2 today2 g2)
  /\ col low (fetch ak1 today1 g1) = col low (fetch ak2 today2 g2)
  /\ col close (fetch ak1 today1 g1) = col close (fetch ak2 today2 g2)
  /\ (today1 = today2 -> fetch ak1 today1 g1 = fetch ak2 today2 g2)
  /\ metrics_of ak1 = metrics_of ak2.
Proof.
  intros Hp1 Hp2 Hm1 Hm2 fetch metrics_of. subst fetch metrics_of.
  unfold price_fetch_failed in Hp1, Hp2.
  unfold fetch_price_data. rewrite Hp1, Hp2.
  unfold synthetic_prices, bind, put, ret.
  destruct (np_random_randn days
              (np_random_seed (seed_of py_hash hash_seed stock_code)))
    as [r g'].
  destruct (np_random_rand days g') as [u1 g''].
  destruct (np_random_rand days g'') as [u2 g'''].
  cbn [fst].
  assert (length (date_range today1 days) = length (date_range today2 days)) as Hlen
    by (rewrite !date_range_length; reflexivity).
  destruct (make_frame_cols _ _
              (series_add (series_add_scalar (cumsum r) (of_Z 100))
                          (series_mul_scalar u1 (of_Z 2)))
              (series_sub (series_add_scalar (cumsum r) (of_Z 100))
                          (series_mul_scalar u2 (of_Z 2)))
              (series_add_scalar (cumsum r) (of_Z 100)) Hlen) as (Eh & El & Ec).
  split; [exact Eh|]. split; [exact El|]. split; [exact Ec|].
  split; [intros ->; reflexivity|].
  unfold fetch_financial_metrics.
  destruct ak1 as [a1|], ak2 as [a2|]; simpl in Hm1, Hm2;
    rewrite ?Hm1, ?Hm2; reflexivity.
Qed.

(** Two fall-back runs for one ticker whose clocks differ return different
    frames, whatever the generator: the date column ends at the time of the
    run. *)
Lemma fallback_dates_follow_clock :
  exists (stock_code : string) (days : nat) (today1 today2 : Z),
  forall (py_hash : Z -> string -> Z) (hash_seed : Z)
         (Gen : Type) (np_random_seed : Z -> Gen)
         (np_random_randn np_random_rand : nat -> Rand Gen Series) (g1 g2 : Gen),
    (forall k g, length (np_random_randn k g).1 = k) ->
    (forall k g, length (np_random_rand k g).1 = k) ->
    (fetch_price_data py_hash hash_seed Gen np_random_seed np_random_randn
       np_random_rand None today1 stock_code days g1).1
    <> (fetch_price_data py_hash hash_seed Gen np_random_seed np_random_randn
          np_random_rand None today2 stock_code days g2).1.
Proof.
  exists "600519"%string, 1%nat, 0%Z, 1%Z.
  intros py_hash hash_seed Gen np_random_seed np_random_randn np_random_rand
    g1 g2 Hn Hu.
  unfold fetch_price_data. cbn [mbind option_bind].
  unfold synthetic_prices, bind, put, ret.
  pose proof (Hn 1%nat
                (np_random_seed (seed_of py_hash hash_seed "600519"%string))) as L0.
  destruct (np_random_randn 1
              (np_random_seed (seed_of py_hash hash_seed "600519"%string)))
    as [r ga].
  pose proof (Hu 1%nat ga) as L1. destruct (np_random_rand 1 ga) as [u1 gb].
  pose proof (Hu 1%nat gb) as L2. destruct (np_random_rand 1 gb) as [u2 gc].
  cbn [fst] in *.
  destruct r as [|x [|? ?]]; try discriminate L0.
  destruct u1 as [|y [|? ?]]; try discriminate L1.
  destruct u2 as [|z [|? ?]]; try discriminate L2.
  cbn. intros [= E].
Qed.

(** ** Signals and the engine on sample rows *)

(** On the specification's row ([DIF = 1.2], [DEA = 0.8], [MACD = 0.5],
    [J = 15]) the bullish and the oversold signal are emitted. *)
Lemma signal_derivation_witness :
  BullishMomentum ∈ signals
    (row_of (of_Q (12 # 10)) (of_Q (8 # 10)) (of_Q (5 # 10)) (of_Z 15))
  /\ Oversold ∈ signals
       (row_of (of_Q (12 # 10)) (of_Q (8 # 10)) (of_Q (5 # 10)) (of_Z 15))
  /\ report (row_of (of_Q (12 # 10)) (of_Q (8 # 10)) (of_Q (5 # 10)) (of_Z 15))
     = Success (join "，" [signal_text BullishMomentum; signal_text Oversold]).
Proof.
  destruct (signal_derivation
              (row_of (of_Q (12 # 10)) (of_Q (8 # 10)) (of_Q (5 # 10)) (of_Z 15)))
    as (Hbull & _ & Hover & _ & _ & _ & Hshow & _).
  split; [apply Hbull; split; reflexivity|].
  split; [apply Hover; reflexivity|].
  apply Hshow. discriminate.
Defined.

(** A last row with every indicator missing: nothing is emitted. *)
Lemma missing_values_fire_no_signal_witness :
  signals (Row NaN NaN NaN NaN NaN NaN) = []
  /\ report (Row NaN NaN NaN NaN NaN NaN) = Info no_clear_signal
  /\ (Oversold ∉ signals (row_of (of_Z 2) (of_Z 1) (of_Z 2) NaN))
  /\ (BullishMomentum ∉ signals (row_of (of_Z 2) NaN (of_Z 2) (of_Z 15))).
Proof.
  destruct (missing_values_fire_no_signal (Row NaN NaN NaN NaN NaN NaN))
    as (_ & _ & Hall).
  destruct (Hall eq_refl eq_refl eq_refl eq_refl) as [Hnil Hrep].
  refine (conj Hnil (conj Hrep (conj _ _))).
  - exact (proj1 (proj1 (missing_values_fire_no_signal
                           (row_of (of_Z 2) (of_Z 1) (of_Z 2) NaN)) eq_refl)).
  - exact (proj1 (proj1 (proj2 (missing_values_fire_no_signal
                                  (row_of (of_Z 2) NaN (of_Z 2) (of_Z 15))))
                        (or_intror (or_introl eq_refl)))).
Defined.

(** The ten-row scenario: RSV, K, D and J are missing up to row 7 and hold
    the values of the formulas at rows 8 and 9; MACD starts at zero. *)
Example scenario_kdj :
  take 8 (rsv scenario) = replicate 8 NaN
  /\ take 8 (K (compute_macd_kdj scenario)) = replicate 8 NaN
  /\ take 8 (D (compute_macd_kdj scenario)) = replicate 8 NaN
  /\ take 8 (J (compute_macd_kdj scenario)) = replicate 8 NaN
  /\ drop 8 (rsv scenario) = [of_Q (650 # 7); of_Q (375 # 4)]
  /\ drop 8 (K (compute_macd_kdj scenario)) = [of_Q (450 # 7); of_Q (2075 # 28)]
  /\ drop 8 (D (compute_macd_kdj scenario))
     = [of_Q (1150 # 21); of_Q (15425 # 252)]
  /\ drop 8 (J (compute_macd_kdj scenario))
     = [of_Q (250 # 3); of_Q (25175 # 252)]
  /\ take 2 (DIF (compute_macd_kdj scenario)) = [of_Z 0; of_Q (56 # 351)]
  /\ MACD (compute_macd_kdj scenario) !! 0%nat = Some (of_Z 0).
Proof. by_evaluation. Qed.

(** KDJ restarts after a flat window: with nine flat rows followed by a row
    that opens the range, K is missing at row 8 and starts from 50 at row 9. *)
Example reseed_after_flat_window :
  rsv flat_then_open !! 8%nat = Some NaN
  /\ K (compute_macd_kdj flat_then_open) !! 8%nat = Some NaN
  /\ rsv flat_then_open !! 9%nat = Some (of_Z 50)
  /\ K (compute_macd_kdj flat_then_open) !! 9%nat
     = Some (of_Z 2 / of_Z 3 * of_Z 50 + of_Z 1 / of_Z 3 * of_Z 50)%F.
Proof. by_evaluation. Qed.

(** ** The last row *)

(** [iloc[-1]] fails on an empty frame only: all six columns have one entry
    per input row, and the last row holds entry [N - 1] of each. *)
Lemma iloc_last_rows (df : list bar) :
  df <> [] ->
  exists row,
    iloc_last (compute_macd_kdj df) = Some row
    /\ DIF (compute_macd_kdj df) !! pred (length df) = Some (row_DIF row)
    /\ DEA (compute_macd_kdj df) !! pred (length df) = Some (row_DEA row)
    /\ MACD (compute_macd_kdj df) !! pred (length df) = Some (row_MACD row)
    /\ J (compute_macd_kdj df) !! pred (length df) = Some (row_J row).
Proof.
  intros Hne. unfold iloc_last. cbn [DIF DEA MACD K D J compute_macd_kdj].
  assert (0 < length df)%nat as Hlen by (destruct df; [congruence | simpl; lia]).
  rewrite !last_lookup, dif_length, dea_length, macd_bar_length, k_list_length,
    d_list_length, j_list_length.
  destruct (lookup_lt_is_Some' (dif df) (pred (length df))) as [x1 ->];
    [rewrite dif_length; lia|].
  destruct (lookup_lt_is_Some' (dea df) (pred (length df))) as [x2 ->];
    [rewrite dea_length; lia|].
  destruct (lookup_lt_is_Some' (macd_bar df) (pred (length df))) as [x3 ->];
    [rewrite macd_bar_length; lia|].
  destruct (lookup_lt_is_Some' (k_list df) (pred (length df))) as [x4 ->];
    [rewrite k_list_length; lia|].
  destruct (lookup_lt_is_Some' (d_list df) (pred (length df))) as [x5 ->];
    [rewrite d_list_length; lia|].
  destruct (lookup_lt_is_Some' (j_list df) (pred (length df))) as [x6 ->];
    [rewrite j_list_length; lia|].
  eexists. simpl. repeat split.
Qed.

Lemma iloc_last_empty : iloc_last (compute_macd_kdj []) = None.
Proof. reflexivity. Qed.

(** * Further properties of the code *)

(** ** No look-ahead: the indicators of a row use that row and earlier ones *)

Section Prefix.

Implicit Types df : list bar.
Implicit Types s vals : Series.

Lemma ewm_loop_take alpha vals : forall st k,
  ewm_loop alpha st (take k vals) = take k (ewm_loop alpha st vals).
Proof.
  induction vals as [|v vals IH]; intros st k; [destruct k; reflexivity|].
  destruct k as [|k]; [reflexivity|]. cbn [take ewm_loop]. rewrite IH. reflexivity.
Qed.

Lemma ewm_mean_take span vals k :
  ewm_mean span (take k vals) = take k (ewm_mean span vals).
Proof.
  unfold ewm_mean. rewrite prep_values_take.
  destruct (prep_values vals) as [|v rest]; [destruct k; reflexivity|].
  destruct k as [|k]; [reflexivity|]. cbn [take ewm_kernel].
  rewrite ewm_loop_take. reflexivity.
Qed.

Lemma window_take k s m i :
  (m <= S i)%nat -> (S i <= k)%nat -> window m (take k s) i = window m s i.
Proof.
  intros Hm Hk. unfold window.
  rewrite skipn_firstn_comm, take_take. f_equal. lia.
Qed.

Lemma rolling_take m agg s k :
  rolling m agg (take k s) = take k (rolling m agg s).
Proof.
  apply list_eq. intros i. rewrite rolling_lookup.
  destruct (decide (i < k)%nat) as [Hi|Hi].
  - rewrite !lookup_take_lt by lia. rewrite rolling_lookup.
    destruct (s !! i); [|reflexivity]. cbn [fmap option_fmap option_map].
    destruct (decide (S i < m)%nat); [reflexivity|].
    rewrite prep_values_take, window_take by lia. reflexivity.
  - rewrite !lookup_take_ge by lia. reflexivity.
Qed.

Lemma col_take (f : bar -> pyfloat) df k : col f (take k df) = take k (col f df).
Proof. unfold col. apply fmap_take. Qed.

Lemma rsv_take df k : rsv (take k df) = take k (rsv df).
Proof.
  unfold rsv, series_mul_scalar, series_div, series_sub, low_min, high_max,
    rolling_min, rolling_max.
  rewrite !col_take, !rolling_take, <- !zip_with_take. apply fmap_take.
Qed.

Lemma kd_lists_take df k :
  k_list (take k df) = take k (k_list df)
  /\ d_list (take k df) = take k (d_list df).
Proof.
  unfold k_list, d_list, kd_lists. rewrite rsv_take.
  destruct (decide (k <= length (rsv df))%nat) as [Hk|Hk].
  - exact (kd_state_prefix (rsv df) k Hk).
  - destruct (kd_loop_length (rsv df)) as [Lk Ld].
    rewrite !take_ge by lia. auto.
Qed.

(** X1.  Cutting the frame after [k] rows cuts every computed column after
    [k] entries and changes nothing before: RSV, DIF, DEA, MACD, K, D and J
    at a row never depend on later rows. *)
Theorem no_lookahead df k :
  rsv (take k df) = take k (rsv df)
  /\ DIF (compute_macd_kdj (take k df)) = take k (DIF (compute_macd_kdj df))
  /\ DEA (compute_macd_kdj (take k df)) = take k (DEA (compute_macd_kdj df))
  /\ MACD (compute_macd_kdj (take k df)) = take k (MACD (compute_macd_kdj df))
  /\ K (compute_macd_kdj (take k df)) = take k (K (compute_macd_kdj df))
  /\ D (compute_macd_kdj (take k df)) = take k (D (compute_macd_kdj df))
  /\ J (compute_macd_kdj (take k df)) = take k (J (compute_macd_kdj df)).
Proof.
  cbn [DIF DEA MACD K D J compute_macd_kdj].
  assert (dif (take k df) = take k (dif df)) as Hdif.
  { unfold dif, series_sub, short_ema, long_ema.
    rewrite !col_take, !ewm_mean_take, <- zip_with_take. reflexivity. }
  assert (dea (take k df) = take k (dea df)) as Hdea.
  { unfold dea. rewrite Hdif. apply ewm_mean_take. }
  destruct (kd_lists_take df k) as [Hk Hd].
  split; [apply rsv_take|]. split; [exact Hdif|]. split; [exact Hdea|].
  split; [|split; [exact Hk|split; [exact Hd|]]].
  - unfold macd_bar, scalar_mul_series, series_sub.
    rewrite Hdif, Hdea, <- zip_with_take. apply fmap_take.
  - unfold j_list. rewrite Hk, Hd, <- zip_with_take. reflexivity.
Qed.

End Prefix.

(** ** Which RSV rows are missing *)

Section MissingRows.

Implicit Types df : list bar.

Lemma well_formed_finite_cols df :
  Forall (fun b => well_formed_bar b = true) df ->
  all_finite (col high df) /\ all_finite (col low df) /\ all_finite (col close df).
Proof.
  intros Hwf. unfold all_finite, col. rewrite !Forall_fmap.
  repeat split; (eapply Forall_impl; [exact Hwf|]); intros b Hb;
    unfold well_formed_bar in Hb;
    repeat (apply andb_true_iff in Hb as [Hb ?]); assumption.
Qed.

(** On well-formed rows a full window has a finite low and a finite high. *)
Lemma full_window_extrema df i :
  Forall (fun b => well_formed_bar b = true) df ->
  (i < length df)%nat -> (n <= S i)%nat ->
  exists ql qh, low_min df !! i = Some (Fin ql) /\ high_max df !! i = Some (Fin qh).
Proof.
  intros Hwf Hi Hn. destruct (well_formed_finite_cols df Hwf) as (Fh & Fl & _).
  assert (forall s, all_finite s -> existsb isnan (window n s i) = false) as Hnonan.
  { intros s Hs. apply not_true_is_false. intros Hex.
    apply existsb_exists in Hex as (x & Hin & Hx).
    apply list_elem_of_In in Hin.
    pose proof (window_finite n s i Hs) as Hw.
    unfold all_finite in Hw. rewrite Forall_forall in Hw. specialize (Hw x Hin).
    destruct x; simpl in *; congruence. }
  assert (forall s, (i < length s)%nat -> window n s i <> []) as Hne.
  { intros s Hs Hnil. destruct (lookup_lt_is_Some' s i Hs) as [x Hx].
    pose proof (window_contains_row n s i x ltac:(unfold n; lia) Hx) as Hin.
    rewrite Hnil in Hin. inversion Hin. }
  unfold low_min, high_max, rolling_min, rolling_max. rewrite !rolling_lookup.
  rewrite (prep_values_finite _ Fl), (prep_values_finite _ Fh).
  destruct (lookup_lt_is_Some' (col low df) i) as [xl ->];
    [rewrite col_length; exact Hi|].
  destruct (lookup_lt_is_Some' (col high df) i) as [xh ->];
    [rewrite col_length; exact Hi|].
  cbn [fmap option_fmap option_map].
  destruct (decide (S i < n)%nat); [lia|].
  rewrite (Hnonan _ Fl), (Hnonan _ Fh).
  pose proof (foldr_fmin_finite (window n (col low df) i)
                (Hne _ ltac:(rewrite col_length; exact Hi))
                (window_finite n _ i Fl)) as F1.
  pose proof (foldr_fmax_finite (window n (col high df) i)
                (Hne _ ltac:(rewrite col_length; exact Hi))
                (window_finite n _ i Fh)) as F2.
  apply is_finite_Fin in F1 as [ql ->]. apply is_finite_Fin in F2 as [qh ->].
  eauto.
Qed.

(** X2.  In every frame the first eight rows have a missing RSV, K, D and
    J.  In a frame of well-formed rows (finite prices, low <= close <= high)
    the RSV of a row is missing exactly when the row is one of the first
    eight or its window is flat ([high_max == low_min]). *)
Theorem rsv_missing_rows df i r lm hm :
  rsv df !! i = Some r ->
  low_min df !! i = Some lm ->
  high_max df !! i = Some hm ->
  ((i < 8)%nat ->
   r = NaN
   /\ K (compute_macd_kdj df) !! i = Some NaN
   /\ D (compute_macd_kdj df) !! i = Some NaN
   /\ J (compute_macd_kdj df) !! i = Some NaN)
  /\ (Forall (fun b => well_formed_bar b = true) df ->
      (r = NaN <-> (i < 8)%nat \/ (hm =? lm)%F = true)).
Proof.
  intros Hr Hl Hh.
  pose proof (lookup_lt_Some _ _ _ Hr) as Hi. rewrite rsv_length in Hi.
  assert ((i < 8)%nat -> rsv df !! i = Some NaN) as Hwarm
    by (intros H8; apply rsv_warmup; [exact Hi | unfold n; lia]).
  split.
  - intros H8. specialize (Hwarm H8). split; [congruence|].
    exact (kdj_missing df i Hwarm).
  - intros Hwf. split.
    + intros ->. destruct (decide (i < 8)%nat) as [|H8]; [auto|]. right.
      destruct (full_window_extrema df i Hwf Hi ltac:(unfold n; lia))
        as (ql & qh & Hl' & Hh').
      rewrite Hl' in Hl. rewrite Hh' in Hh. injection Hl as <-. injection Hh as <-.
      destruct (lookup_lt_is_Some_2 df i Hi) as [b Hb].
      destruct (well_formed_finite_cols df Hwf) as (_ & _ & Fc).
      assert (col close df !! i = Some (close b)) as Hc
        by (unfold col; rewrite list_lookup_fmap, Hb; reflexivity).
      pose proof (Forall_lookup_1 _ _ _ _ Fc Hc) as Fb.
      apply is_finite_Fin in Fb as [qc Eb]. rewrite Eb in Hc.
      rewrite (rsv_lookup df i _ _ _ Hc Hl' Hh') in Hr.
      destruct (Fin qh =? Fin ql)%F eqn:E; [reflexivity|]. exfalso.
      rewrite !fsub_Fin in Hr. rewrite fdiv_Fin in Hr; [discriminate|].
      intros Hz. simpl in E.
      assert (qh = ql) as ->
        by (replace qh with ((qh - ql) + ql)%Qc by ring; rewrite Hz; ring).
      replace (ql ?= ql)%Qc with Eq in E; [discriminate|].
      symmetry. apply Qceq_alt. reflexivity.
    + intros [H8 | Hflat].
      * specialize (Hwarm H8). congruence.
      * destruct (lookup_lt_is_Some_2 df i Hi) as [b Hb].
        pose proof (Forall_lookup_1 _ _ _ _ Hwf Hb) as Hwb.
        unfold well_formed_bar in Hwb.
        apply andb_true_iff in Hwb as [Hwb Hch].
        apply andb_true_iff in Hwb as [_ Hlc].
        pose proof (close_at_flat_price df i b lm hm Hb Hl Hh Hflat Hlc Hch) as Ec.
        assert (col close df !! i = Some (close b)) as Hc
          by (unfold col; rewrite list_lookup_fmap, Hb; reflexivity).
        rewrite (rsv_lookup df i _ _ _ Hc Hl Hh) in Hr. injection Hr as <-.
        apply feq_true in Hflat as [-> _]. apply feq_true in Ec as [-> _].
        destruct (fsub_diag lm) as [-> | ->]; reflexivity.
Qed.

End MissingRows.

Lemma scenario_well_formed : Forall (fun b => well_formed_bar b = true) scenario.
Proof. repeat constructor. Qed.

Lemma flat_then_open_well_formed :
  Forall (fun b => well_formed_bar b = true) flat_then_open.
Proof. repeat constructor. Qed.

(** On the flat frame followed by an opening row: row 3 is in the warm-up,
    row 8 has a flat window, row 9 has an RSV. *)
Lemma rsv_missing_rows_witness :
  K (compute_macd_kdj flat_then_open) !! 3%nat = Some NaN
  /\ (NaN = NaN <-> (8 < 8)%nat \/ (of_Z 10 =? of_Z 10)%F = true)
  /\ (of_Z 50 = NaN <-> (9 < 8)%nat \/ (of_Z 12 =? of_Z 10)%F = true).
Proof.
  assert (rsv flat_then_open !! 3%nat = Some NaN) as R3 by by_evaluation.
  assert (low_min flat_then_open !! 3%nat = Some NaN) as L3 by by_evaluation.
  assert (high_max flat_then_open !! 3%nat = Some NaN) as H3 by by_evaluation.
  assert (rsv flat_then_open !! 8%nat = Some NaN) as R8 by by_evaluation.
  assert (low_min flat_then_open !! 8%nat = Some (of_Z 10)) as L8 by by_evaluation.
  assert (high_max flat_then_open !! 8%nat = Some (of_Z 10)) as H8 by by_evaluation.
  assert (rsv flat_then_open !! 9%nat = Some (of_Z 50)) as R9 by by_evaluation.
  assert (low_min flat_then_open !! 9%nat = Some (of_Z 10)) as L9 by by_evaluation.
  assert (high_max flat_then_open !! 9%nat = Some (of_Z 12)) as H9 by by_evaluation.
  split; [|split].
  - exact (proj1 (proj2 (proj1 (rsv_missing_rows flat_then_open 3 _ _ _ R3 L3 H3)
                               ltac:(lia)))).
  - exact (proj2 (rsv_missing_rows flat_then_open 8 _ _ _ R8 L8 H8)
                 flat_then_open_well_formed).
  - exact (proj2 (rsv_missing_rows flat_then_open 9 _ _ _ R9 L9 H9)
                 flat_then_open_well_formed).
Defined.

(** ** A price that does not move *)

Section ConstantClose.

Implicit Types df : list bar.

Lemma flt_irrefl x : (x <? x)%F = false.
Proof.
  destruct (x <? x)%F eqn:E; [|reflexivity].
  pose proof (flt_asym x x E). congruence.
Qed.

Lemma ewm_loop_constant a c (vals : Series) :
  Forall (fun x => x = Fin c) vals ->
  ewm_loop (Fin a) (Fin c, of_Z 1) vals = vals.
Proof.
  induction 1 as [|x vals -> _ IH]; [reflexivity|].
  cbn [ewm_loop]. rewrite ewm_step_finite.
  assert ((Fin a * Fin c + (of_Z 1 - Fin a) * Fin c)%F = Fin c) as ->.
  { unfold of_Z, of_Q. change (Q2Qc (inject_Z 1)) with 1%Qc.
    cbn [fmul fsub fadd fopp]. f_equal. ring. }
  cbn [fst]. rewrite IH. reflexivity.
Qed.

Lemma ewm_mean_constant span c (vals : Series) :
  is_finite (alpha_of_span span) = true ->
  Forall (fun x => x = Fin c) vals -> ewm_mean span vals = vals.
Proof.
  intros Ha Hc. apply is_finite_Fin in Ha as [a Ha].
  unfold ewm_mean. rewrite prep_values_finite
    by (eapply Forall_impl; [exact Hc|]; intros x ->; reflexivity).
  destruct Hc as [|x vals -> Hc]; [reflexivity|].
  cbn [ewm_kernel]. rewrite Ha, ewm_loop_constant by exact Hc. reflexivity.
Qed.

Lemma zip_with_fsub_diag c (vals : Series) :
  Forall (fun x => x = Fin c) vals ->
  Forall (fun x => x = Fin 0) (zip_with fsub vals vals).
Proof.
  induction 1 as [|x vals -> _ IH]; [constructor|].
  cbn [zip_with]. constructor; [apply fsub_diag_Fin | exact IH].
Qed.

Lemma last_Forall (P : pyfloat -> Prop) (s : Series) x :
  Forall P s -> last s = Some x -> P x.
Proof.
  intros Hs Hx. rewrite last_lookup in Hx.
  exact (Forall_lookup_1 _ _ _ _ Hs Hx).
Qed.

(** X3.  When every close is the same number, DIF, DEA and MACD are zero at
    every row, and the last row emits no momentum signal. *)
Theorem constant_close_no_momentum df c :
  Forall (fun b => close b = Fin c) df ->
  Forall (fun x => x = of_Z 0) (DIF (compute_macd_kdj df))
  /\ Forall (fun x => x = of_Z 0) (DEA (compute_macd_kdj df))
  /\ Forall (fun x => x = of_Z 0) (MACD (compute_macd_kdj df))
  /\ (forall last_row,
        iloc_last (compute_macd_kdj df) = Some last_row ->
        (BullishMomentum ∉ signals last_row)
        /\ (BearishMomentum ∉ signals last_row)).
Proof.
  intros Hc. cbn [DIF DEA MACD compute_macd_kdj].
  assert (Forall (fun x => x = Fin c) (col close df)) as Hcol
    by (unfold col; rewrite Forall_fmap; exact Hc).
  assert (Forall (fun x => x = Fin 0) (dif df)) as Hdif.
  { unfold dif, series_sub, short_ema, long_ema.
    rewrite !(ewm_mean_constant _ c) by (reflexivity || exact Hcol).
    apply (zip_with_fsub_diag c), Hcol. }
  assert (dea df = dif df) as Hdea
    by (unfold dea; apply (ewm_mean_constant 9 0); [reflexivity | exact Hdif]).
  assert (Forall (fun x => x = Fin 0) (macd_bar df)) as Hmacd.
  { unfold macd_bar, scalar_mul_series, series_sub. rewrite Hdea.
    rewrite Forall_fmap. eapply Forall_impl; [apply (zip_with_fsub_diag 0), Hdif|].
    intros x ->. unfold of_Z, of_Q; cbn [fmul]; f_equal; ring. }
  rewrite Hdea. rewrite of_Z_0.
  split; [exact Hdif|]. split; [exact Hdif|]. split; [exact Hmacd|].
  intros last_row Hrow. unfold iloc_last in Hrow.
  cbn [DIF DEA MACD K D J compute_macd_kdj] in Hrow. rewrite Hdea in Hrow.
  destruct (last (dif df)) as [x1|] eqn:E1; [|discriminate].
  destruct (last (macd_bar df)) as [x3|] eqn:E3; [|discriminate].
  destruct (last (k_list df)) as [x4|]; [|discriminate].
  destruct (last (d_list df)) as [x5|]; [|discriminate].
  destruct (last (j_list df)) as [x6|]; [|discriminate].
  cbn in Hrow. injection Hrow as <-.
  rewrite !signals_spec. cbn [spec_condition row_DIF row_DEA row_MACD].
  unfold fgt. rewrite flt_irrefl. split; discriminate.
Qed.

End ConstantClose.

Lemma constant_close_no_momentum_witness :
  Forall (fun b => close b = Fin (Q2Qc 10)) flat_frame
  /\ Forall (fun x => x = of_Z 0) (MACD (compute_macd_kdj flat_frame))
  /\ exists last_row,
       iloc_last (compute_macd_kdj flat_frame) = Some last_row
       /\ (BullishMomentum ∉ signals last_row)
       /\ (BearishMomentum ∉ signals last_row).
Proof.
  assert (Forall (fun b => close b = Fin (Q2Qc 10)) flat_frame) as Hc
    by repeat constructor.
  destruct (constant_close_no_momentum flat_frame (Q2Qc 10) Hc)
    as (_ & _ & Hmacd & Hsig).
  refine (conj Hc (conj Hmacd _)).
  destruct (iloc_last_rows flat_frame ltac:(discriminate)) as (row & Hrow & _).
  exists row. exact (conj Hrow (Hsig row Hrow)).
Defined.

(** ** Ranges of the KDJ lines *)

Section RationalOrder.

Implicit Types a b : Qc.

Lemma this_plus a b : (this (a + b) == this a + this b)%Q.
Proof. apply Qred_correct. Qed.

Lemma this_mult a b : (this (a * b) == this a * this b)%Q.
Proof. apply Qred_correct. Qed.

Lemma this_opp a : (this (- a) == - this a)%Q.
Proof. apply Qred_correct. Qed.

Lemma this_minus a b : (this (a - b) == this a - this b)%Q.
Proof. unfold Qcminus. rewrite this_plus, this_opp. reflexivity. Qed.

Lemma this_inv a : (this (/ a) == / this a)%Q.
Proof. apply Qred_correct. Qed.

Lemma this_div a b : (this (a / b) == this a / this b)%Q.
Proof. unfold Qcdiv. rewrite this_mult, this_inv. reflexivity. Qed.

Lemma this_Q2Qc (q : Q) : (this (Q2Qc q) == q)%Q.
Proof. apply Qred_correct. Qed.

End RationalOrder.

(** Orders on canonical rationals, read on the underlying fractions. *)
Ltac qc_to_q :=
  unfold Qcle, Qclt in *;
  repeat (rewrite ?this_div, ?this_minus, ?this_plus, ?this_mult, ?this_opp,
            ?this_inv, ?this_Q2Qc in * );
  unfold inject_Z in *.

Section KdjRanges.

Implicit Types df : list bar.

Lemma within_Fin lo hi x :
  within lo hi x = true <->
  exists q, x = Fin q
            /\ (Q2Qc (inject_Z lo) <= q)%Qc /\ (q <= Q2Qc (inject_Z hi))%Qc.
Proof.
  unfold within, of_Z, of_Q. rewrite andb_true_iff. split.
  - intros [H1 H2]. destruct x as [q| | |]; try discriminate.
    exists q. rewrite !fle_Fin in *. auto.
  - intros (q & -> & H1 & H2). rewrite !fle_Fin. auto.
Qed.

Lemma within_not_inf lo hi x : missing_or_within lo hi x -> is_inf x = false.
Proof.
  intros [-> | H]; [reflexivity|].
  apply within_Fin in H as (q & -> & _). reflexivity.
Qed.

(** The low of the window is at most the close of the row, the high at
    least. *)
Lemma window_brackets_close df i b lm hm :
  df !! i = Some b ->
  low_min df !! i = Some lm -> lm <> NaN ->
  high_max df !! i = Some hm -> hm <> NaN ->
  (low b <=? close b)%F = true ->
  (close b <=? high b)%F = true ->
  (lm <=? close b)%F = true /\ (close b <=? hm)%F = true.
Proof.
  intros Hb Hl Hlm Hh Hhm Hlc Hch.
  destruct (rolling_defined n _ _ i lm Hl Hlm) as [Hwl El].
  destruct (rolling_defined n _ _ i hm Hh Hhm) as [Hwh Eh].
  assert (low b ∈ window n (prep_values (col low df)) i) as Hin_l.
  { apply window_contains_prepared; [unfold n; lia | | exact Hwl].
    unfold col. rewrite list_lookup_fmap, Hb. reflexivity. }
  assert (high b ∈ window n (prep_values (col high df)) i) as Hin_h.
  { apply window_contains_prepared; [unfold n; lia | | exact Hwh].
    unfold col. rewrite list_lookup_fmap, Hb. reflexivity. }
  pose proof (foldr_fmin_le _ _ Hwl Hin_l) as H1. rewrite <- El in H1.
  pose proof (foldr_fmax_ge _ _ Hwh Hin_h) as H2. rewrite <- Eh in H2.
  split; eapply fle_trans; eassumption.
Qed.

Lemma rsv_value_range (qc ql qh : Qc) :
  (ql <= qc)%Qc -> (qc <= qh)%Qc ->
  missing_or_within 0 100 ((Fin qc - Fin ql) / (Fin qh - Fin ql) * of_Z 100)%F.
Proof.
  intros H1 H2. rewrite !fsub_Fin.
  destruct (Qc_eq_dec qh ql) as [-> | Hne].
  - left. assert (qc = ql) as -> by (apply Qcle_antisym; assumption).
    replace (ql - ql)%Qc with 0%Qc by ring. reflexivity.
  - right. rewrite fdiv_Fin.
    + apply within_Fin. eexists. split; [reflexivity|].
      assert (ql < qh)%Qc as Hlt.
      { apply Qcle_lt_or_eq in H1, H2.
        destruct (Qcle_lt_or_eq ql qh (Qcle_trans _ _ _
                    ltac:(destruct H1 as [H|H]; [apply Qclt_le_weak, H | rewrite H; apply Qcle_refl])
                    ltac:(destruct H2 as [H|H]; [apply Qclt_le_weak, H | rewrite H; apply Qcle_refl])))
          as [H | H]; [exact H | congruence]. }
      qc_to_q.
      assert (0 < qh - ql)%Q by lra.
      assert (0 <= (qc - ql) / (qh - ql))%Q by (apply Qle_shift_div_l; lra).
      assert ((qc - ql) / (qh - ql) <= 1)%Q by (apply Qle_shift_div_r; lra).
      split; lra.
    + intros Hz. apply Hne.
      replace qh with ((qh - ql) + ql)%Qc by ring. rewrite Hz. ring.
Qed.

Lemma rsv_in_range df :
  Forall (fun b => well_formed_bar b = true) df ->
  forall i r, rsv df !! i = Some r -> missing_or_within 0 100 r.
Proof.
  intros Hwf i r Hr.
  pose proof (lookup_lt_Some _ _ _ Hr) as Hi. rewrite rsv_length in Hi.
  destruct (decide (S i < n)%nat) as [Hw|Hw].
  - rewrite (rsv_warmup df i Hi Hw) in Hr. injection Hr as <-. left. reflexivity.
  - destruct (full_window_extrema df i Hwf Hi ltac:(lia)) as (ql & qh & Hl & Hh).
    destruct (lookup_lt_is_Some_2 df i Hi) as [b Hb].
    pose proof (Forall_lookup_1 _ _ _ _ Hwf Hb) as Hwb.
    unfold well_formed_bar in Hwb.
    apply andb_true_iff in Hwb as [Hwb Hch].
    apply andb_true_iff in Hwb as [Hwb Hlc].
    apply andb_true_iff in Hwb as [_ Fc].
    destruct (window_brackets_close df i b _ _ Hb Hl ltac:(discriminate)
                Hh ltac:(discriminate) Hlc Hch) as [B1 B2].
    apply is_finite_Fin in Fc as [qc Ec]. rewrite Ec in B1, B2.
    apply fle_Fin in B1, B2.
    assert (col close df !! i = Some (Fin qc)) as Hc
      by (unfold col; rewrite list_lookup_fmap, Hb, <- Ec; reflexivity).
    rewrite (rsv_lookup df i _ _ _ Hc Hl Hh) in Hr. injection Hr as <-.
    apply rsv_value_range; assumption.
Qed.

Lemma two_thirds : (of_Z 2 / of_Z 3)%F = of_Q (2 # 3).
Proof. by_evaluation. Qed.

Lemma one_third : (of_Z 1 / of_Z 3)%F = of_Q (1 # 3).
Proof. by_evaluation. Qed.

Lemma smooth_k_Fin (a b : Qc) :
  smooth_k (Fin a) (Fin b) = Fin (Q2Qc (2 # 3) * a + Q2Qc (1 # 3) * b)%Qc.
Proof. unfold smooth_k. rewrite two_thirds, one_third. reflexivity. Qed.

Lemma smooth_k_range k_prev r :
  within 0 100 k_prev = true -> within 0 100 r = true ->
  within 0 100 (smooth_k k_prev r) = true.
Proof.
  intros Hk Hr. apply within_Fin in Hk as (a & -> & A1 & A2).
  apply within_Fin in Hr as (b & -> & B1 & B2).
  apply within_Fin. rewrite smooth_k_Fin. eexists. split; [reflexivity|].
  qc_to_q. split; lra.
Qed.

Lemma within_50 : within 0 100 (of_Z 50) = true.
Proof. reflexivity. Qed.

Lemma kd_loop_range (rs : Series) :
  (forall i r, rs !! i = Some r -> missing_or_within 0 100 r) ->
  forall i k d,
    (kd_loop 0 rs ([], [])).1 !! i = Some k ->
    (kd_loop 0 rs ([], [])).2 !! i = Some d ->
    missing_or_within 0 100 k /\ missing_or_within 0 100 d.
Proof.
  intros Hrange.
  assert (forall i r, rs !! i = Some r -> is_inf r = false) as Hinf
    by (intros i r Hr; exact (within_not_inf _ _ _ (Hrange i r Hr))).
  induction i as [|j IH]; intros k d Hk Hd.
  - destruct (kd_loop_length rs) as [Lk _].
    pose proof (lookup_lt_Some _ _ _ Hk) as Hlen. rewrite Lk in Hlen.
    destruct (lookup_lt_is_Some' rs 0 Hlen) as [r Hr].
    destruct (Hrange _ _ Hr) as [-> | Rr].
    + destruct (kd_loop_nan rs 0 Hr) as [Hk' Hd'].
      rewrite Hk' in Hk. rewrite Hd' in Hd. injection Hk as <-. injection Hd as <-.
      split; left; reflexivity.
    + assert (isnan r = false) as Er
        by (apply within_Fin in Rr as (q & -> & _); reflexivity).
      destruct (kd_loop_first rs r Hr Er) as [Hk' Hd'].
      rewrite Hk' in Hk. rewrite Hd' in Hd. injection Hk as <-. injection Hd as <-.
      split; right; repeat apply smooth_k_range; (exact within_50 || exact Rr).
  - destruct (kd_loop_length rs) as [Lk Ld].
    pose proof (lookup_lt_Some _ _ _ Hk) as Hlen. rewrite Lk in Hlen.
    destruct (lookup_lt_is_Some' rs (S j) Hlen) as [r Hr].
    destruct (Hrange _ _ Hr) as [-> | Rr].
    + destruct (kd_loop_nan rs (S j) Hr) as [Hk' Hd'].
      rewrite Hk' in Hk. rewrite Hd' in Hd. injection Hk as <-. injection Hd as <-.
      split; left; reflexivity.
    + assert (isnan r = false) as Er
        by (apply within_Fin in Rr as (q & -> & _); reflexivity).
      destruct (kd_loop_defined rs (S j) r Hr Er)
        as (kp & dp & Hk' & Hd' & [[-> ->] | (j' & Ej & Hkp & Ekp & Hdp)]);
        rewrite Hk' in Hk; rewrite Hd' in Hd;
        injection Hk as <-; injection Hd as <-.
      * split; right; repeat apply smooth_k_range; (exact within_50 || exact Rr).
      * injection Ej as <-.
        destruct (lookup_lt_is_Some' rs j ltac:(lia)) as [rj Hrj].
        destruct (kd_loop_finite rs Hinf j rj kp dp Hrj Hkp Hdp) as [Hmiss Hfin].
        destruct (isnan rj) eqn:Erj.
        { destruct (Hmiss eq_refl) as [-> _]. discriminate. }
        destruct (Hfin eq_refl) as [_ Fd].
        destruct (IH kp dp Hkp Hdp) as [[-> | Rk] [-> | Rd]]; try discriminate.
        split; right; repeat apply smooth_k_range; assumption.
Qed.

Lemma j_value_range k d :
  within 0 100 k = true -> within 0 100 d = true ->
  within (-200) 300 (of_Z 3 * k - of_Z 2 * d)%F = true.
Proof.
  intros Hk Hd. apply within_Fin in Hk as (a & -> & A1 & A2).
  apply within_Fin in Hd as (b & -> & B1 & B2).
  apply within_Fin. exists (Q2Qc (inject_Z 3) * a - Q2Qc (inject_Z 2) * b)%Qc.
  split; [reflexivity|].
  qc_to_q. split; lra.
Qed.

(** X4.  On a frame of well-formed rows (finite prices, low <= close <=
    high), every RSV, K and D entry is missing or lies in [0, 100], and
    every J entry is missing or lies in [-200, 300]. *)
Theorem kdj_ranges df i r k d j :
  Forall (fun b => well_formed_bar b = true) df ->
  rsv df !! i = Some r ->
  K (compute_macd_kdj df) !! i = Some k ->
  D (compute_macd_kdj df) !! i = Some d ->
  J (compute_macd_kdj df) !! i = Some j ->
  missing_or_within 0 100 r
  /\ missing_or_within 0 100 k
  /\ missing_or_within 0 100 d
  /\ missing_or_within (-200) 300 j.
Proof.
  intros Hwf Hr Hk Hd Hj. cbn [K D J compute_macd_kdj] in *.
  rewrite (j_list_lookup df i k d Hk Hd) in Hj. injection Hj as <-.
  unfold k_list, d_list, kd_lists in Hk, Hd.
  destruct (kd_loop_range (rsv df) (rsv_in_range df Hwf) i k d Hk Hd) as [Rk Rd].
  split; [exact (rsv_in_range df Hwf i r Hr)|].
  split; [exact Rk|]. split; [exact Rd|].
  destruct Rk as [-> | Rk]; [left; reflexivity|].
  destruct Rd as [-> | Rd].
  - left. apply within_Fin in Rk as (q & -> & _). reflexivity.
  - right. replace (negb (isnan k)) with true
      by (apply within_Fin in Rk as (q & -> & _); reflexivity).
    apply j_value_range; assumption.
Qed.

End KdjRanges.

Lemma kdj_ranges_witness :
  Forall (fun b => well_formed_bar b = true) scenario
  /\ missing_or_within 0 100 (of_Q (375 # 4))
  /\ missing_or_within 0 100 (of_Q (2075 # 28))
  /\ missing_or_within 0 100 (of_Q (15425 # 252))
  /\ missing_or_within (-200) 300 (of_Q (25175 # 252)).
Proof.
  assert (rsv scenario !! 9%nat = Some (of_Q (375 # 4))) as R9 by by_evaluation.
  assert (K (compute_macd_kdj scenario) !! 9%nat = Some (of_Q (2075 # 28))) as K9
    by by_evaluation.
  assert (D (compute_macd_kdj scenario) !! 9%nat = Some (of_Q (15425 # 252))) as D9
    by by_evaluation.
  assert (J (compute_macd_kdj scenario) !! 9%nat = Some (of_Q (25175 # 252))) as J9
    by by_evaluation.
  exact (conj scenario_well_formed
           (kdj_ranges scenario 9 _ _ _ _ scenario_well_formed R9 K9 D9 J9)).
Defined.

(** ** Signals on short frames *)

Section ShortFrames.

Implicit Types df : list bar.

(** The last row holds the last entry of each column. *)
Lemma iloc_last_lookup (ind : indicators) row :
  iloc_last ind = Some row ->
  last (DIF ind) = Some (row_DIF row) /\ last (DEA ind) = Some (row_DEA row)
  /\ last (MACD ind) = Some (row_MACD row) /\ last (K ind) = Some (row_K row)
  /\ last (D ind) = Some (row_D row) /\ last (J ind) = Some (row_J row).
Proof.
  unfold iloc_last.
  destruct (last (DIF ind)), (last (DEA ind)), (last (MACD ind)),
    (last (K ind)), (last (D ind)), (last (J ind)); try discriminate.
  cbn. intros [= <-]. cbn. repeat split.
Qed.

Lemma iloc_last_nonempty df row :
  iloc_last (compute_macd_kdj df) = Some row -> df <> [].
Proof. intros H ->. discriminate H. Qed.

(** X5.  While the frame has fewer than nine rows its last row has a
    missing J and the page shows neither zone signal; on a frame of one
    row the page shows no signal at all, whatever the prices. *)
Theorem short_frame_signals df row :
  iloc_last (compute_macd_kdj df) = Some row ->
  ((length df < 9)%nat ->
     row_J row = NaN /\ (Oversold ∉ signals row) /\ (Overbought ∉ signals row))
  /\ (length df = 1%nat -> report row = Info no_clear_signal).
Proof.
  intros Hrow. pose proof (iloc_last_nonempty df row Hrow) as Hne.
  assert (0 < length df)%nat as Hpos by (destruct df; [congruence | simpl; lia]).
  destruct (iloc_last_rows df Hne) as (row' & Hrow' & Hdif & Hdea & Hmacd & Hj).
  rewrite Hrow in Hrow'. injection Hrow' as <-.
  assert ((length df < 9)%nat -> row_J row = NaN) as HJ.
  { intros Hlen.
    assert (rsv df !! pred (length df) = Some NaN) as Hr
      by (apply rsv_warmup; unfold n; lia).
    destruct (kdj_missing df _ Hr) as (_ & _ & HJ).
    rewrite HJ in Hj. injection Hj as <-. reflexivity. }
  split.
  - intros Hlen. specialize (HJ Hlen). split; [exact HJ|].
    rewrite !signals_spec. cbn [spec_condition]. rewrite HJ.
    split; intros E; discriminate E.
  - intros Hlen. apply report_no_clear_signal, signals_nil.
    assert (row_DEA row = row_DIF row) as E.
    { rewrite Hlen in Hdif, Hdea. cbn [pred] in Hdif, Hdea.
      cbn [DIF DEA compute_macd_kdj] in Hdif, Hdea.
      rewrite dea_head, Hdif in Hdea. congruence. }
    specialize (HJ ltac:(lia)).
    intros s. destruct s; cbn [spec_condition]; rewrite ?E, ?HJ;
      unfold fgt; rewrite ?flt_irrefl; reflexivity.
Qed.

End ShortFrames.

Lemma short_frame_signals_witness :
  exists row,
    iloc_last (compute_macd_kdj short_frame) = Some row
    /\ row_J row = NaN /\ (Oversold ∉ signals row) /\ (Overbought ∉ signals row).
Proof.
  assert (short_frame <> []) as Hne by discriminate.
  destruct (iloc_last_rows short_frame Hne) as (row & Hrow & _).
  exists row. split; [exact Hrow|].
  apply (short_frame_signals short_frame row Hrow). vm_compute. lia.
Defined.

(** ** The synthetic price frame *)

Section SyntheticFrame.

Variable py_hash : Z -> string -> Z.
Variable hash_seed : Z.
Variable Gen : Type.
Variable np_random_seed : Z -> Gen.
Variable np_random_randn : nat -> Rand Gen Series.
Variable np_random_rand : nat -> Rand Gen Series.

Local Abbreviation fetch :=
  (fetch_price_data py_hash hash_seed Gen np_random_seed np_random_randn
     np_random_rand).
Local Abbreviation synthetic :=
  (synthetic_prices py_hash hash_seed Gen np_random_seed np_random_randn
     np_random_rand).

Lemma cumsum_from_length acc (xs : Series) :
  length (cumsum_from acc xs) = length xs.
Proof.
  revert acc. induction xs as [|x xs IH]; intros acc; [reflexivity|].
  simpl. rewrite IH. reflexivity.
Qed.

Lemma cumsum_length (xs : Series) : length (cumsum xs) = length xs.
Proof. destruct xs; simpl; [|rewrite cumsum_from_length]; reflexivity. Qed.

Lemma cumsum_from_finite acc (xs : Series) :
  is_finite acc = true -> all_finite xs -> all_finite (cumsum_from acc xs).
Proof.
  unfold all_finite. intros Hacc Hxs. revert acc Hacc.
  induction Hxs as [|x xs Hx Hxs IH]; intros acc Hacc; [constructor|].
  simpl. assert (is_finite (acc + x)%F = true) as H by (apply fadd_finite; assumption).
  constructor; [exact H | exact (IH _ H)].
Qed.

Lemma cumsum_finite (xs : Series) : all_finite xs -> all_finite (cumsum xs).
Proof.
  unfold all_finite. intros Hxs. destruct Hxs as [|x xs Hx Hxs]; [constructor|].
  simpl. constructor; [exact Hx | exact (cumsum_from_finite x xs Hx Hxs)].
Qed.

Lemma make_frame_lookup (dates : list Z) (highs lows closes : Series) i b :
  make_frame dates highs lows closes !! i = Some b ->
  exists d h l c,
    dates !! i = Some d /\ highs !! i = Some h /\ lows !! i = Some l
    /\ closes !! i = Some c /\ b = Bar d h l c.
Proof.
  unfold make_frame. intros H.
  apply lookup_zip_with_Some in H as (d & hlc & -> & Hd & Hz).
  apply lookup_zip_with_Some in Hz as (hl & c & -> & Hhl & Hc).
  apply lookup_zip_with_Some in Hhl as (h & l & -> & Hh & Hl).
  exists d, h, l, c. repeat split; assumption.
Qed.

Lemma make_frame_length (dates : list Z) (highs lows closes : Series) k :
  length dates = k -> length highs = k -> length lows = k -> length closes = k ->
  length (make_frame dates highs lows closes) = k.
Proof.
  intros Hd Hh Hl Hc. unfold make_frame.
  rewrite !length_zip_with. lia.
Qed.

(** The fall-back frame, from the three arrays it draws. *)
Lemma synthetic_prices_frame today stock_code days g :
  let seeded := np_random_seed (seed_of py_hash hash_seed stock_code) in
  let r := np_random_randn days seeded in
  let u1 := np_random_rand days r.2 in
  let u2 := np_random_rand days u1.2 in
  let price := series_add_scalar (cumsum r.1) (of_Z 100) in
  synthetic today stock_code days g
  = (make_frame (date_range today days)
       (series_add price (series_mul_scalar u1.1 (of_Z 2)))
       (series_sub price (series_mul_scalar u2.1 (of_Z 2)))
       price, u2.2).
Proof.
  cbv zeta. unfold synthetic_prices, bind, put, ret.
  destruct (np_random_randn days _) as [r g1]. cbn [fst snd].
  destruct (np_random_rand days g1) as [u1 g2]. cbn [fst snd].
  destruct (np_random_rand days g2) as [u2 g3]. reflexivity.
Qed.

Lemma date_range_lookup today days i d :
  date_range today days !! i = Some d ->
  d = (today - Z.of_nat (days - 1 - i) * microseconds_per_day)%Z.
Proof.
  unfold date_range. rewrite list_lookup_fmap.
  destruct (seq 0 days !! i) as [k|] eqn:E; [|discriminate].
  apply lookup_seq in E as [-> _]. cbn. congruence.
Qed.

(** The fall-back branch returns one row per day asked for. *)
Lemma synthetic_prices_length today stock_code days g :
  length_law np_random_randn -> length_law np_random_rand ->
  length (synthetic today stock_code days g).1 = days.
Proof.
  intros Hrandn Hrand. rewrite synthetic_prices_frame. cbn [fst].
  apply make_frame_length.
  - apply date_range_length.
  - unfold series_add, series_add_scalar, series_mul_scalar.
    rewrite length_zip_with, !length_fmap, cumsum_length, Hrandn, Hrand. lia.
  - unfold series_sub, series_add_scalar, series_mul_scalar.
    rewrite length_zip_with, !length_fmap, cumsum_length, Hrandn, Hrand. lia.
  - unfold series_add_scalar. rewrite length_fmap, cumsum_length. apply Hrandn.
Qed.

(** X6.  A fall-back run whose generator returns arrays of the length
    asked for yields a frame of exactly [days] rows, dated one day apart
    and ending at the time of the run. *)
Theorem synthetic_frame_shape ak today stock_code days g :
  price_fetch_failed ak stock_code days ->
  length_law np_random_randn -> length_law np_random_rand ->
  let df := (fetch ak today stock_code days g).1 in
  length df = days
  /\ (forall i b, df !! i = Some b ->
        date b = (today - Z.of_nat (days - 1 - i) * microseconds_per_day)%Z)
  /\ (forall b, last df = Some b -> date b = today).
Proof.
  intros Hfail Hrandn Hrand df. subst df.
  unfold price_fetch_failed in Hfail. unfold fetch_price_data. rewrite Hfail.
  pose proof (synthetic_prices_length today stock_code days g Hrandn Hrand) as Hlen.
  rewrite synthetic_prices_frame in *. cbn [fst] in *.
  set (frame := make_frame _ _ _ _) in *.
  assert (forall i b, frame !! i = Some b ->
            date b = (today - Z.of_nat (days - 1 - i) * microseconds_per_day)%Z)
    as Hdates.
  { intros i b Hb. apply make_frame_lookup in Hb as (d & h & l & c & Hd & _ & _ & _ & ->).
    cbn. exact (date_range_lookup today days i d Hd). }
  split; [exact Hlen|]. split; [exact Hdates|].
  intros b Hb. rewrite last_lookup, Hlen in Hb.
  rewrite (Hdates _ _ Hb).
  assert (pred days < days)%nat
    by (apply lookup_lt_Some in Hb; rewrite Hlen in Hb; exact Hb).
  replace (days - 1 - pred days)%nat with 0%nat by lia. lia.
Qed.

(** The rows of the fall-back branch. *)
Lemma synthetic_prices_rows today stock_code days g :
  finite_draws np_random_randn -> unit_draws np_random_rand ->
  Forall (fun b => well_formed_bar b = true
                   /\ (high b <=? close b + of_Z 2)%F = true
                   /\ (close b - of_Z 2 <=? low b)%F = true)
         (synthetic today stock_code days g).1.
Proof.
  intros Hrandn Hrand.
  rewrite synthetic_prices_frame. cbn [fst].
  apply Forall_lookup_2. intros i b Hb.
  apply make_frame_lookup in Hb as (d & h & l & c & _ & Hh & Hl & Hc & ->).
  unfold series_add, series_sub in Hh, Hl.
  apply lookup_zip_with_Some in Hh as (p1 & a & -> & Hp1 & Ha).
  apply lookup_zip_with_Some in Hl as (p2 & b & -> & Hp2 & Hb).
  rewrite Hc in Hp1, Hp2. injection Hp1 as <-. injection Hp2 as <-.
  unfold series_add_scalar in Hc. unfold series_mul_scalar in Ha, Hb.
  rewrite list_lookup_fmap in Hc, Ha, Hb.
  destruct (cumsum _ !! i) as [s|] eqn:Es; [|discriminate].
  destruct (_ !! i) as [ua|] eqn:Eua in Ha; [|discriminate].
  destruct (_ !! i) as [ub|] eqn:Eub in Hb; [|discriminate].
  cbn in Hc, Ha, Hb. injection Hc as <-. injection Ha as <-. injection Hb as <-.
  eapply Forall_lookup_1 in Es; [|apply cumsum_finite, Hrandn].
  cbv beta in Es.
  apply is_finite_Fin in Es as [q ->].
  eapply Forall_lookup_1 in Eua; [|apply Hrand].
  eapply Forall_lookup_1 in Eub; [|apply Hrand].
  cbv beta in Eua, Eub.
  apply within_Fin in Eua as (qa & -> & A1 & A2).
  apply within_Fin in Eub as (qb & -> & B1 & B2).
  unfold well_formed_bar. cbn [high low close is_finite fadd fsub fmul fopp of_Z of_Q andb].
  rewrite andb_true_iff, !fle_Fin. repeat split; qc_to_q; lra.
Qed.

(** X7.  On a fall-back run whose normal draws are numbers and whose
    uniform draws lie between 0 and 1, every row of the frame is well
    formed (finite prices, low <= close <= high), with the high at most 2
    above the close and the low at most 2 below it. *)
Theorem synthetic_frame_well_formed ak today stock_code days g :
  price_fetch_failed ak stock_code days ->
  finite_draws np_random_randn -> unit_draws np_random_rand ->
  Forall (fun b => well_formed_bar b = true
                   /\ (high b <=? close b + of_Z 2)%F = true
                   /\ (close b - of_Z 2 <=? low b)%F = true)
         (fetch ak today stock_code days g).1.
Proof.
  intros Hfail Hrandn Hrand.
  unfold price_fetch_failed in Hfail. unfold fetch_price_data. rewrite Hfail.
  apply synthetic_prices_rows; assumption.
Qed.

End SyntheticFrame.

(** ** The seed of the fall-back across interpreter processes *)

Section SaltedHash.

Variable py_hash : Z -> string -> Z.
Variable Gen : Type.
Variable np_random_seed : Z -> Gen.
Variable np_random_randn : nat -> Rand Gen Series.
Variable np_random_rand : nat -> Rand Gen Series.

Lemma make_frame_close (dates : list Z) (highs lows closes : Series) k :
  length dates = k -> length highs = k -> length lows = k -> length closes = k ->
  col close (make_frame dates highs lows closes) = closes.
Proof.
  intros Hd Hh Hl Hc. apply list_eq. intros i. unfold col.
  rewrite list_lookup_fmap.
  destruct (make_frame dates highs lows closes !! i) as [b|] eqn:Hb.
  - apply make_frame_lookup in Hb as (d & h & l & c & _ & _ & _ & Hci & ->).
    rewrite Hci. reflexivity.
  - apply lookup_ge_None in Hb.
    rewrite (make_frame_length _ _ _ _ k Hd Hh Hl Hc) in Hb.
    symmetry. apply lookup_ge_None. lia.
Qed.

(** The first close of a fall-back frame is the first normal draw of the
    seeded generator, plus 100. *)
Lemma synthetic_first_close hash_seed today stock_code days g :
  length_law np_random_randn -> length_law np_random_rand ->
  col close
    (synthetic_prices py_hash hash_seed Gen np_random_seed np_random_randn
       np_random_rand today stock_code days g).1 !! 0%nat
  = (fun x => x + of_Z 100)%F
    <$> (np_random_randn days
           (np_random_seed (seed_of py_hash hash_seed stock_code))).1 !! 0%nat.
Proof.
  intros Hrandn Hrand. rewrite synthetic_prices_frame. cbn [fst].
  rewrite (make_frame_close _ _ _ _ days).
  - unfold series_add_scalar. rewrite list_lookup_fmap.
    destruct (np_random_randn days _).1 as [|x r]; reflexivity.
  - apply date_range_length.
  - unfold series_add, series_add_scalar, series_mul_scalar.
    rewrite length_zip_with, !length_fmap, cumsum_length, Hrandn, Hrand. lia.
  - unfold series_sub, series_add_scalar, series_mul_scalar.
    rewrite length_zip_with, !length_fmap, cumsum_length, Hrandn, Hrand. lia.
  - unfold series_add_scalar. rewrite length_fmap, cumsum_length. apply Hrandn.
Qed.

(** C8.  Two fall-back runs on the same ticker in two interpreter
    processes: Python salts [hash] per process, so the two runs seed numpy
    with [abs(hash(code)) % 2**32] under two hash seeds.  Whenever the
    generator's first normal draw differs between the two seeds, the two
    runs return different close columns for the same ticker, whatever the
    clock and the generator state before: the seeding from the ticker does
    not make the synthetic series reproducible. *)
Theorem synthetic_fallback_salted_hash
    (hash_seed1 hash_seed2 : Z) (ak1 ak2 : option akshare)
    (today1 today2 : Z) (g1 g2 : Gen) (stock_code : string) (days : nat)
    (a b : Qc) :
  price_fetch_failed ak1 stock_code days ->
  price_fetch_failed ak2 stock_code days ->
  length_law np_random_randn -> length_law np_random_rand ->
  (np_random_randn days
     (np_random_seed (seed_of py_hash hash_seed1 stock_code))).1 !! 0%nat
  = Some (Fin a) ->
  (np_random_randn days
     (np_random_seed (seed_of py_hash hash_seed2 stock_code))).1 !! 0%nat
  = Some (Fin b) ->
  a <> b ->
  col close
    (fetch_price_data py_hash hash_seed1 Gen np_random_seed np_random_randn
       np_random_rand ak1 today1 stock_code days g1).1
  <> col close
       (fetch_price_data py_hash hash_seed2 Gen np_random_seed np_random_randn
          np_random_rand ak2 today2 stock_code days g2).1.
Proof.
  intros Hp1 Hp2 Hrandn Hrand Ha Hb Hab E.
  unfold price_fetch_failed in Hp1, Hp2.
  unfold fetch_price_data in E. rewrite Hp1, Hp2 in E.
  apply (f_equal (fun s => s !! 0%nat)) in E.
  rewrite !synthetic_first_close, Ha, Hb in E by assumption.
  unfold of_Z, of_Q in E. set (c := Q2Qc (inject_Z 100)) in E.
  cbn [fmap option_fmap option_map fadd] in E.
  apply (f_equal (fun o => match o with Some (Fin q) => q | _ => 0%Qc end)) in E.
  cbv beta iota in E. apply Hab.
  replace a with (a + c - c)%Qc by ring. rewrite E. ring.
Qed.

End SaltedHash.


Lemma toy_draws_length : length_law toy_draws.
Proof. intros k g. cbn. rewrite length_fmap. apply length_seq. Qed.

Lemma half_draws_length : length_law half_draws.
Proof. intros k g. cbn. apply length_replicate. Qed.

Lemma toy_draws_finite : finite_draws toy_draws.
Proof.
  intros k g. cbn. unfold all_finite. apply Forall_fmap, Forall_forall.
  intros x _. reflexivity.
Qed.

Lemma half_draws_unit : unit_draws half_draws.
Proof.
  intros k g. cbn. apply Forall_replicate. by_evaluation.
Qed.

(** Under the stand-in hash the ticker's seed is 96 with salt 42 and 97
    with salt 43, and the first closes are 196 and 197. *)
Lemma synthetic_fallback_salted_hash_witness :
  price_fetch_failed None "600519" 3
  /\ seed_of toy_hash 42 "600519" = 96%Z
  /\ seed_of toy_hash 43 "600519" = 97%Z
  /\ col close (fetch_price_data toy_hash 42 Z toy_seed toy_draws toy_draws
                  None 0 "600519" 3 5%Z).1
     <> col close (fetch_price_data toy_hash 43 Z toy_seed toy_draws toy_draws
                     None 0 "600519" 3 5%Z).1.
Proof.
  assert (price_fetch_failed None "600519" 3) as P by reflexivity.
  refine (conj P (conj eq_refl (conj eq_refl _))).
  apply (synthetic_fallback_salted_hash toy_hash Z toy_seed toy_draws toy_draws
           42%Z 43%Z None None 0%Z 0%Z 5%Z 5%Z "600519" 3%nat
           (Q2Qc (inject_Z 96)) (Q2Qc (inject_Z 97)) P P
           toy_draws_length toy_draws_length); [reflexivity | reflexivity|].
  intros E. discriminate E.
Defined.

Lemma synthetic_frame_shape_witness :
  price_fetch_failed (Some ak_down) "600519" 3
  /\ length (toy_fetch (Some ak_down) 86400000000 5) = 3%nat
  /\ forall b, last (toy_fetch (Some ak_down) 86400000000 5) = Some b ->
               date b = 86400000000%Z.
Proof.
  assert (price_fetch_failed (Some ak_down) "600519" 3) as P by reflexivity.
  destruct (synthetic_frame_shape toy_hash 42 Z toy_seed toy_draws toy_draws
              (Some ak_down) 86400000000%Z "600519" 3%nat 5%Z P
              toy_draws_length toy_draws_length) as (Hlen & _ & Hlast).
  exact (conj P (conj Hlen Hlast)).
Defined.

Lemma synthetic_frame_well_formed_witness :
  price_fetch_failed None "600519" 3
  /\ Forall (fun b => well_formed_bar b = true
                      /\ (high b <=? close b + of_Z 2)%F = true
                      /\ (close b - of_Z 2 <=? low b)%F = true)
       (fetch_price_data toy_hash 42 Z toy_seed toy_draws half_draws
          None 0 "600519" 3 5%Z).1.
Proof.
  assert (price_fetch_failed None "600519" 3) as P by reflexivity.
  exact (conj P (synthetic_frame_well_formed toy_hash 42 Z toy_seed toy_draws
                   half_draws None 0%Z "600519" 3%nat 5%Z P
                   toy_draws_finite half_draws_unit)).
Defined.

(** ** The financial metrics *)

Section RoundToCents.

(** Rounding to the nearest integer stays between integer bounds. *)
Lemma rint_bounds (x : Q) (m M : Z) :
  (inject_Z m <= x)%Q -> (x <= inject_Z M)%Q -> (m <= rint x <= M)%Z.
Proof.
  intros Hm HM. pose proof (Qfloor_le x) as Hf. pose proof (Qlt_floor x) as Hc.
  assert (m <= Qfloor x)%Z as Hmf.
  { assert (m < Qfloor x + 1)%Z; [|lia].
    rewrite Zlt_Qlt. eapply Qle_lt_trans; eassumption. }
  assert (Qfloor x <= M)%Z as HfM.
  { rewrite Zle_Qle. eapply Qle_trans; eassumption. }
  assert ((1 # 2 <= x - inject_Z (Qfloor x))%Q -> (Qfloor x + 1 <= M)%Z) as Hup.
  { intros Hhalf. assert (Qfloor x < M)%Z; [|lia].
    rewrite Zlt_Qlt. eapply Qlt_le_trans; [|exact HM]. lra. }
  unfold rint. cbv zeta.
  destruct (Qcompare_spec (x - inject_Z (Qfloor x)) (1 # 2)) as [E|E|E].
  - assert (Qfloor x + 1 <= M)%Z by (apply Hup; lra).
    destruct (Z.even (Qfloor x)); lia.
  - lia.
  - assert (Qfloor x + 1 <= M)%Z by (apply Hup; lra). lia.
Qed.

Lemma round2_keeps_bounds : keeps_integer_bounds round2.
Proof.
  intros lo hi x H. apply within_Fin in H as (q & -> & H1 & H2).
  unfold round2, of_Z, of_Q.
  rewrite fdiv_Fin by (intros E; discriminate E).
  apply within_Fin. eexists. split; [reflexivity|].
  destruct (rint_bounds (this q * 100) (lo * 100) (hi * 100)) as [B1 B2].
  { rewrite inject_Z_mult. qc_to_q. lra. }
  { rewrite inject_Z_mult. qc_to_q. lra. }
  rewrite Zle_Qle, inject_Z_mult in B1, B2.
  qc_to_q. split.
  - apply Qle_shift_div_l; [reflexivity|]. exact B1.
  - apply Qle_shift_div_r; [reflexivity|]. exact B2.
Qed.

Lemma toy_uniform_in_range : uniform_in_range toy_uniform.
Proof.
  intros lo hi g H. cbn. split; [|exact H].
  apply fle_refl. intros ->. discriminate H.
Qed.

End RoundToCents.

Section Metrics.

Variable py_hash : Z -> string -> Z.
Variable hash_seed : Z.
Variable Generator : Type.
Variable default_rng : Z -> Generator.
Variable uniform : pyfloat -> pyfloat -> Rand Generator pyfloat.
Variable np_round2 : pyfloat -> pyfloat.

Local Abbreviation metrics_of :=
  (fetch_financial_metrics py_hash hash_seed Generator default_rng uniform
     np_round2).

(** The dictionary the function returns, from what akshare set. *)
Lemma fetch_financial_metrics_filled ak stock_code :
  let fetched :=
    match ak with
    | Some a => stock_financial_analysis_indicator_em a stock_code
    | None => (None, None, None)
    end in
  let rounded lo hi : Rand Generator pyfloat :=
    fun g => (np_round2 (uniform lo hi g).1, (uniform lo hi g).2) in
  let pe := fill Generator fetched.1.1 (rounded (of_Z 10) (of_Z 30))
              (default_rng (seed_of py_hash hash_seed stock_code)) in
  let pb := fill Generator fetched.1.2 (rounded (of_Z 1) (of_Z 5)) pe.2 in
  let growth := fill Generator fetched.2 (rounded (of_Z (-10)) (of_Z 30)) pb.2 in
  let u := uniform (of_Q (8 # 10)) (of_Q (12 # 10)) growth.2 in
  metrics_of ak stock_code
  = Metrics (Some pe.1) (Some pb.1) (Some growth.1)
            (Some (np_round2 (pe.1 * u.1)%F)).
Proof.
  cbv zeta. unfold fetch_financial_metrics.
  destruct (match ak with Some a => _ | None => _ end) as [[pe0 pb0] growth0].
  cbn [fst snd]. unfold bind, ret.
  destruct pe0 as [pe0|]; cbn [fill]; unfold ret;
    [|destruct (uniform (of_Z 10) (of_Z 30) _) as [u1 g1]]; cbn [fst snd];
    (destruct pb0 as [pb0|]; cbn [fill]; unfold ret;
       [|destruct (uniform (of_Z 1) (of_Z 5) _) as [u2 g2]]; cbn [fst snd]);
    (destruct growth0 as [growth0|]; cbn [fill]; unfold ret;
       [|destruct (uniform (of_Z (-10)) (of_Z 30) _) as [u3 g3]]; cbn [fst snd]);
    destruct (uniform (of_Q (8 # 10)) (of_Q (12 # 10)) _) as [u4 g4];
    reflexivity.
Qed.

Lemma between_Fin (lo hi : Q) x :
  (of_Q lo <=? x)%F = true -> (x <=? of_Q hi)%F = true ->
  exists q, x = Fin q /\ (lo <= this q)%Q /\ (this q <= hi)%Q.
Proof.
  unfold of_Q. intros H1 H2. destruct x as [q| | |]; try discriminate.
  exists q. rewrite fle_Fin in H1, H2. qc_to_q. auto.
Qed.

(** X10.  When akshare provides no metric, and [uniform] keeps to its
    bounds and the rounding to integer bounds, the synthetic P/E lies in
    [10, 30], the P/B in [1, 5], the profit growth in [-10, 30] and the
    industry average P/E in [8, 36]. *)
Theorem synthetic_metric_ranges ak stock_code :
  metrics_fetch_failed ak stock_code ->
  uniform_in_range uniform -> keeps_integer_bounds np_round2 ->
  exists pe pb growth ind,
    metrics_of ak stock_code
    = Metrics (Some pe) (Some pb) (Some growth) (Some ind)
    /\ within 10 30 pe = true /\ within 1 5 pb = true
    /\ within (-10) 30 growth = true /\ within 8 36 ind = true.
Proof.
  intros Hfail Hu Hround. rewrite fetch_financial_metrics_filled. cbv zeta.
  assert (match ak with
          | Some a => stock_financial_analysis_indicator_em a stock_code
          | None => (None, None, None)
          end = (None, None, None)) as ->
    by (destruct ak; [exact Hfail | reflexivity]).
  cbn [fst snd fill].
  assert (forall lo hi g, (lo <=? hi)%Z = true ->
            within lo hi (np_round2 (uniform (of_Z lo) (of_Z hi) g).1) = true)
    as Hdraw.
  { intros lo hi g Hle. apply Hround. unfold within.
    destruct (Hu (of_Z lo) (of_Z hi) g) as [-> ->]; [|reflexivity].
    unfold of_Z, of_Q. apply fle_Fin. apply Z.leb_le in Hle.
    unfold Qcle. rewrite !this_Q2Qc, <- Zle_Qle. exact Hle. }
  eexists _, _, _, _. split; [reflexivity|].
  split; [apply Hdraw; reflexivity|]. split; [apply Hdraw; reflexivity|].
  split; [apply Hdraw; reflexivity|].
  apply Hround.
  pose proof (Hdraw 10 30 (default_rng (seed_of py_hash hash_seed stock_code))
                eq_refl)%Z as Hpe.
  apply within_Fin in Hpe as (q & -> & Q1 & Q2).
  match goal with |- context [uniform (of_Q (8 # 10)) (of_Q (12 # 10)) ?g] =>
    destruct (Hu (of_Q (8 # 10)) (of_Q (12 # 10)) g) as [U1 U2];
      [by_evaluation|];
    destruct (between_Fin _ _ _ U1 U2) as (qu & -> & V1 & V2)
  end.
  apply within_Fin. eexists. split; [reflexivity|].
  qc_to_q. split; nra.
Qed.

End Metrics.

Lemma synthetic_metric_ranges_witness :
  metrics_fetch_failed (Some ak_down) "600519"
  /\ exists pe pb growth ind,
       fetch_financial_metrics toy_hash 42 Z toy_seed toy_uniform round2
         (Some ak_down) "600519"
       = Metrics (Some pe) (Some pb) (Some growth) (Some ind)
       /\ within 10 30 pe = true /\ within 1 5 pb = true
       /\ within (-10) 30 growth = true /\ within 8 36 ind = true.
Proof.
  assert (metrics_fetch_failed (Some ak_down) "600519") as M by reflexivity.
  exact (conj M (synthetic_metric_ranges toy_hash 42 Z toy_seed toy_uniform
                   round2 (Some ak_down) "600519" M toy_uniform_in_range
                   round2_keeps_bounds)).
Defined.

(** ** The page *)

Section MainPage.

Variable py_hash : Z -> string -> Z.
Variable hash_seed : Z.
Variable Gen : Type.
Variable np_random_seed : Z -> Gen.
Variable np_random_randn : nat -> Rand Gen Series.
Variable np_random_rand : nat -> Rand Gen Series.
Variable Generator : Type.
Variable default_rng : Z -> Generator.
Variable uniform : pyfloat -> pyfloat -> Rand Generator pyfloat.
Variable np_round2 : pyfloat -> pyfloat.

Local Abbreviation run :=
  (main py_hash hash_seed Gen np_random_seed np_random_randn np_random_rand
     Generator default_rng uniform np_round2).
Local Abbreviation fetch :=
  (fetch_price_data py_hash hash_seed Gen np_random_seed np_random_randn
     np_random_rand).
Local Abbreviation metrics_of :=
  (fetch_financial_metrics py_hash hash_seed Generator default_rng uniform
     np_round2).

(** A pressed run on a stock code: the three calls, then the cards and
    the last row. *)
Lemma main_pressed ak today stock_code g :
  stock_code <> EmptyString ->
  let df := (fetch ak today stock_code default_days g).1 in
  exists c,
    metric_cards (metrics_of ak stock_code) = Some c
    /\ (run ak today stock_code true g).1
       = match iloc_last (compute_macd_kdj df) with
         | None => Raised IndexError
         | Some last_row =>
             Shown (Analysis c (compute_macd_kdj df) (report last_row))
         end.
Proof.
  intros Hcode df. subst df. unfold main.
  apply String.eqb_neq in Hcode. rewrite Hcode. cbn [negb].
  unfold bind, ret.
  destruct (fetch_price_data _ _ _ _ _ _ ak today stock_code default_days g)
    as [df g']. cbn [fst].
  rewrite fetch_financial_metrics_filled. cbv zeta. cbn [metric_cards].
  eexists. split; reflexivity.
Qed.

(** X12.  An offline run (no fetched prices) on a stock code, with normal
    draws that are numbers and uniform draws between 0 and 1, shows the
    analysis of a frame of 250 rows.  In the row the signals are read
    from, DIF, DEA and MACD are numbers, K and D are missing or in
    [0, 100], and J is missing or in [-200, 300]. *)
Theorem main_offline_analysis ak today stock_code g :
  price_fetch_failed ak stock_code default_days ->
  length_law np_random_randn -> length_law np_random_rand ->
  finite_draws np_random_randn -> unit_draws np_random_rand ->
  stock_code <> EmptyString ->
  exists c ind row,
    (run ak today stock_code true g).1 = Shown (Analysis c ind (report row))
    /\ length (rows ind) = 250%nat
    /\ iloc_last ind = Some row
    /\ is_finite (row_DIF row) = true /\ is_finite (row_DEA row) = true
    /\ is_finite (row_MACD row) = true
    /\ missing_or_within 0 100 (row_K row)
    /\ missing_or_within 0 100 (row_D row)
    /\ missing_or_within (-200) 300 (row_J row).
Proof.
  intros Hfail Hlen1 Hlen2 Hfin Hunit Hcode.
  destruct (main_pressed ak today stock_code g Hcode) as (c & _ & ->).
  unfold price_fetch_failed in Hfail. unfold fetch_price_data. rewrite Hfail.
  set (df := (synthetic_prices _ _ _ _ _ _ today stock_code default_days g).1).
  assert (length df = 250%nat) as Hlen
    by (apply synthetic_prices_length; assumption).
  assert (Forall (fun b => well_formed_bar b = true) df) as Hwf.
  { eapply Forall_impl; [apply synthetic_prices_rows; assumption|].
    intros b (H & _). exact H. }
  assert (df <> []) as Hne by (intros E; rewrite E in Hlen; discriminate Hlen).
  destruct (iloc_last_rows df Hne) as (row & Hrow & _).
  rewrite Hrow. exists c, (compute_macd_kdj df), row.
  split; [reflexivity|]. split; [exact Hlen|]. split; [exact Hrow|].
  apply iloc_last_lookup in Hrow as (Ldif & Ldea & Lmacd & Lk & Ld & Lj).
  cbn [DIF DEA MACD K D J compute_macd_kdj] in *.
  pose proof (proj2 (proj2 (well_formed_finite_cols df Hwf))) as Hclose.
  split; [exact (last_Forall _ _ _ (dif_finite df Hclose) Ldif)|].
  split; [exact (last_Forall _ _ _ (dea_finite df Hclose) Ldea)|].
  split; [exact (last_Forall _ _ _ (macd_bar_finite df Hclose) Lmacd)|].
  rewrite last_lookup in Lk, Ld, Lj.
  rewrite k_list_length in Lk. rewrite d_list_length in Ld.
  rewrite j_list_length in Lj.
  rewrite (j_list_lookup df _ _ _ Lk Ld) in Lj. injection Lj as <-.
  destruct (kd_loop_range (rsv df) (rsv_in_range df Hwf) _ _ _ Lk Ld) as [Rk Rd].
  split; [exact Rk|]. split; [exact Rd|].
  destruct Rk as [-> | Rk]; [left; reflexivity|].
  destruct Rd as [-> | Rd].
  - left. apply within_Fin in Rk as (q & -> & _). reflexivity.
  - right. replace (negb (isnan (row_K row))) with true
      by (apply within_Fin in Rk as (q & -> & _); reflexivity).
    apply j_value_range; assumption.
Qed.

End MainPage.

Lemma main_offline_analysis_witness :
  price_fetch_failed None "600519" default_days
  /\ exists c ind row,
       (toy_main None "600519" true 5).1 = Shown (Analysis c ind (report row))
       /\ length (rows ind) = 250%nat
       /\ iloc_last ind = Some row
       /\ is_finite (row_DIF row) = true /\ is_finite (row_DEA row) = true
       /\ is_finite (row_MACD row) = true
       /\ missing_or_within 0 100 (row_K row)
       /\ missing_or_within 0 100 (row_D row)
       /\ missing_or_within (-200) 300 (row_J row).
Proof.
  assert (price_fetch_failed None "600519" default_days) as P by reflexivity.
  assert ("600519"%string <> EmptyString) as Hcode by discriminate.
  exact (conj P (main_offline_analysis toy_hash 42 Z toy_seed toy_draws
                   half_draws Z toy_seed toy_uniform round2 None 0%Z
                   "600519" 5%Z P toy_draws_length half_draws_length
                   toy_draws_finite half_draws_unit Hcode)).
Defined.

(** ** The overview tab of [app.py] *)

Section OverviewCards.

Implicit Types close : Series.

Lemma iloc_neg_last close : iloc_neg close 1 = last close.
Proof.
  unfold iloc_neg. rewrite last_lookup.
  destruct (decide (1 <= 1 <= length close)%nat) as [H|H].
  - f_equal. lia.
  - destruct close; [reflexivity | simpl in H; lia].
Qed.

Lemma iloc_neg_is_Some close k :
  (1 <= k <= length close)%nat -> is_Some (iloc_neg close k).
Proof.
  intros H. unfold iloc_neg. rewrite decide_True by exact H.
  apply lookup_lt_is_Some_2. lia.
Qed.

(** The guard [len(px) > k] keeps both positions of a change in range. *)
Lemma chg_back_is_Some close k : (1 <= k)%nat -> is_Some (chg_back close k).
Proof.
  intros Hk. unfold chg_back.
  destruct (decide (k < length close)%nat) as [H|H]; [|eexists; reflexivity].
  destruct (iloc_neg_is_Some close 1 ltac:(lia)) as [a ->].
  destruct (iloc_neg_is_Some close k ltac:(lia)) as [b ->].
  eexists. reflexivity.
Qed.

Lemma chg_1y_is_Some close : is_Some (chg_1y close).
Proof.
  unfold chg_1y.
  destruct (decide (1 < length close)%nat) as [H|H]; [|eexists; reflexivity].
  destruct (iloc_neg_is_Some close 1 ltac:(lia)) as [a ->].
  destruct (lookup_lt_is_Some_2 close 0 ltac:(lia)) as [b ->].
  eexists. reflexivity.
Qed.

(** X13.  The metrics block of the overview tab raises exactly when the
    price series is empty (the latest-close card reads [iloc[-1]] without
    a guard).  Otherwise the first card is the last close, the
    three-month card is missing up to 63 rows and the change against the
    63rd row from the end beyond, and the one-year card is missing on a
    single row and the change against the first row beyond. *)
Theorem overview_cards_spec close :
  (overview close = None <-> close = [])
  /\ forall c, overview close = Some c ->
       last close = Some (latest_close c)
       /\ ((length close <= 63)%nat -> change_3m c = NaN)
       /\ ((63 < length close)%nat ->
           exists b, close !! (length close - 63)%nat = Some b
                     /\ change_3m c = pct_change (latest_close c) b)
       /\ (length close = 1%nat -> change_1y c = NaN)
       /\ ((1 < length close)%nat ->
           exists b, close !! 0%nat = Some b
                     /\ change_1y c = pct_change (latest_close c) b).
Proof.
  unfold overview, chg_1m, chg_3m.
  destruct (chg_back_is_Some close 21 ltac:(lia)) as [c1 E1].
  rewrite E1. cbn [mbind option_bind].
  rewrite iloc_neg_last. split.
  - destruct (chg_back_is_Some close 63 ltac:(lia)) as [c3 ->].
    destruct (chg_1y_is_Some close) as [cy ->]. cbn [mbind option_bind].
    destruct close as [|x xs] using rev_ind; [split; reflexivity|].
    rewrite last_snoc. cbn [mbind option_bind].
    split; [discriminate | intros E; destruct xs; discriminate E].
  - intros c Hc.
    destruct (last close) as [l|] eqn:El.
    2:{ destruct (chg_back close 63); [|discriminate Hc].
        cbn [mbind option_bind] in Hc.
        destruct (chg_1y close); discriminate Hc. }
    unfold chg_back, chg_1y in Hc. rewrite !iloc_neg_last, El in Hc.
    cbn [mbind option_bind] in Hc.
    assert (0 < length close)%nat as Hpos
      by (destruct close; [discriminate El | simpl; lia]).
    destruct (decide (63 < length close)%nat) as [H3|H3];
      destruct (decide (1 < length close)%nat) as [H1|H1]; try lia.
    + destruct (iloc_neg close 63) as [b3|] eqn:E3; [|discriminate Hc].
      destruct (close !! 0%nat) as [b0|] eqn:E0; [|discriminate Hc].
      cbn [mbind option_bind] in Hc. injection Hc as <-. cbn.
      unfold iloc_neg in E3. rewrite decide_True in E3 by lia.
      split; [reflexivity|]. split; [lia|].
      split; [intros _; exists b3; split; [exact E3 | reflexivity]|].
      split; [lia|]. intros _. exists b0. split; reflexivity.
    + destruct (close !! 0%nat) as [b0|] eqn:E0; [|discriminate Hc].
      cbn [mbind option_bind] in Hc. injection Hc as <-. cbn.
      split; [reflexivity|]. split; [reflexivity|]. split; [lia|].
      split; [lia|]. intros _. exists b0. split; reflexivity.
    + cbn [mbind option_bind] in Hc. injection Hc as <-. cbn.
      split; [reflexivity|]. split; [reflexivity|]. split; [lia|].
      split; [reflexivity|]. lia.
Qed.

End OverviewCards.

Lemma overview_cards_spec_witness :
  overview [] = None
  /\ exists c, overview [of_Z 10; of_Z 11] = Some c
               /\ last [of_Z 10; of_Z 11] = Some (latest_close c)
               /\ change_3m c = NaN.
Proof.
  split; [apply (proj1 (overview_cards_spec [])); reflexivity|].
  assert (is_Some (overview [of_Z 10; of_Z 11])) as [c Hc]
    by (eexists; reflexivity).
  exists c. split; [exact Hc|].
  destruct (proj2 (overview_cards_spec [of_Z 10; of_Z 11]) c Hc)
    as (Hlast & H3 & _).
  split; [exact Hlast|]. apply H3. simpl. lia.
Defined.
